(** * Simplex regression by Frank-Wolfe with away steps (ACTIONet)

    A shallow embedding of [src/decomposition/simplex_regression_FW.cc]:
    the two solvers [run_simplex_regression_FW_base] and
    [run_simplex_regression_FW], together with the part of the Armadillo
    matrix library they call.

    Numeric model.  A finite [double] is an exact rational ([Q]): rounding,
    overflow and NaN are outside the model.  The one place where the solvers
    can leave the finite range on finite data is the quotient
    [x(i) / (1 - x(i))], which is therefore computed in [xdouble] (a finite
    value, an infinity or NaN).  An [int] is a [Z] between [INT_MIN] and
    [INT_MAX]; the conversion of a [double] to [int] truncates toward zero
    and, on a value whose truncation is not an [int] (undefined in C++),
    yields [INT_MIN], as the conversion instruction of x86-64 does.

    Errors.  Armadillo checks conformance of operands and bounds of
    element accesses and raises [std::logic_error]; the model returns
    [Err] in those cases.

    Output.  Of what the solvers print, the model keeps the values of
    [res], one per turn of the iteration loop; the timers of
    [run_simplex_regression_FW] are left out. *)

From Stdlib Require Import List ZArith QArith Qround Qabs Bool Lia Lqa.
Import ListNotations.

Local Open Scope Q_scope.

(** ** Errors raised by the matrix library *)

Inductive arma_error : Type :=
| IncompatibleDims   (* operands of *, - do not conform *)
| IndexOutOfBounds   (* X(i,j), M.col(j) out of range *)
| EmptyObject.       (* index_max of an object without elements *)

Inductive result (A : Type) : Type :=
| Ok (a : A)
| Err (e : arma_error).

Arguments Ok {A} a.
Arguments Err {A} e.

Definition bind {A B : Type} (m : result A) (f : A -> result B) : result B :=
  match m with
  | Ok a => f a
  | Err e => Err e
  end.

Notation "x <- m ;; k" := (bind m (fun x => k))
  (at level 61, m at next level, right associativity).

(** ** Scalars *)

Definition Qltb (a b : Q) : bool := negb (Qle_bool b a).

(** The range of a 32-bit [int]. *)
Definition INT_MIN : Z := (-2147483648)%Z.
Definition INT_MAX : Z := 2147483647%Z.

(** Truncation toward zero. *)
Definition trunc (q : Q) : Z :=
  if Qle_bool 0 q then Qfloor q else Qceiling q.

(** [(int) q]: the truncation of [q] when it is an [int]; [INT_MIN] when it
    is not. *)
Definition double_to_int (q : Q) : Z :=
  let t := trunc q in
  if (INT_MIN <=? t)%Z && (t <=? INT_MAX)%Z then t else INT_MIN.

(** The value of an IEEE quotient of two finite numbers. *)
Inductive xdouble : Type :=
| Fin (q : Q)
| PInf
| NInf
| NaN.

Definition fdiv (a b : Q) : xdouble :=
  if Qeq_bool b 0 then
    (if Qeq_bool a 0 then NaN else if Qltb 0 a then PInf else NInf)
  else Fin (a / b).

(** [a < b] on IEEE values; every comparison with NaN is false. *)
Definition xltb (a b : xdouble) : bool :=
  match a, b with
  | NaN, _ | _, NaN => false
  | _, NInf => false
  | NInf, _ => true
  | PInf, _ => false
  | Fin _, PInf => true
  | Fin p, Fin q => Qltb p q
  end.

(** [std::min(a, b)] is [(b < a) ? b : a]. *)
Definition xmin (a b : xdouble) : xdouble := if xltb b a then b else a.

(** ** Vectors

    Inside the visit of a column the vectors at hand all have the length of
    a column of [X] (the gradient conforms to [X] once it has been
    computed), and [i1], [i2] are rows of it: the checks of Armadillo cannot
    fail there, and the operations on vectors are total functions. *)

Definition vec : Type := list Q.

Definition vsum (v : vec) : Q := fold_right Qplus 0 v.

Fixpoint map2 {A B C : Type} (f : A -> B -> C) (l : list A) (m : list B) : list C :=
  match l, m with
  | a :: l', b :: m' => f a b :: map2 f l' m'
  | _, _ => []
  end.

Definition dot (a b : vec) : Q := vsum (map2 Qmult a b).
Definition vneg (v : vec) : vec := map Qopp v.
Definition vadd (a b : vec) : vec := map2 Qplus a b.
Definition vsub (a b : vec) : vec := map2 Qminus a b.
Definition vscale (s : Q) (v : vec) : vec := map (Qmult s) v.
Definition vabs (v : vec) : vec := map Qabs v.

(** [v(i) = f (v(i))]; nothing happens when [i] is not an index of [v]. *)
Fixpoint upd {A : Type} (i : nat) (f : A -> A) (l : list A) : list A :=
  match l, i with
  | [], _ => []
  | a :: l', O => f a :: l'
  | a :: l', S i' => a :: upd i' f l'
  end.

(** [index_max(v)]: the first position of the largest element. *)
Fixpoint index_max_from (best_i : nat) (best : Q) (i : nat) (l : vec) : nat :=
  match l with
  | [] => best_i
  | v :: l' =>
      if Qltb best v then index_max_from i v (S i) l'
      else index_max_from best_i best (S i) l'
  end.

Definition index_max (v : vec) : result nat :=
  match v with
  | [] => Err EmptyObject
  | v0 :: l => Ok (index_max_from 0 v0 1 l)
  end.

(** ** Dense matrices, stored by columns as in Armadillo *)

Record mat : Type := mkMat { n_rows : nat; n_cols : nat; cols : list vec }.

Definition wf_mat (M : mat) : Prop :=
  length (cols M) = n_cols M /\
  Forall (fun c => length c = n_rows M) (cols M).

Definition zeros (r c : nat) : mat := mkMat r c (repeat (repeat 0 r) c).

(** [M.col(j)], bounds-checked. *)
Definition col (M : mat) (j : nat) : result vec :=
  match nth_error (cols M) j with
  | Some c => Ok c
  | None => Err IndexOutOfBounds
  end.

(** [M.unsafe_col(j)], not checked. *)
Definition unsafe_col (M : mat) (j : nat) : vec := nth j (cols M) [].

(** [M.col(j) = v]. *)
Definition set_col (M : mat) (j : nat) (v : vec) : mat :=
  mkMat (n_rows M) (n_cols M) (upd j (fun _ => v) (cols M)).

(** [M(i,j) = q], bounds-checked. *)
Definition set_elem (M : mat) (i j : nat) (q : Q) : result mat :=
  if (i <? n_rows M)%nat && (j <? n_cols M)%nat then
    Ok (mkMat (n_rows M) (n_cols M)
              (upd j (fun c => upd i (fun _ => q) c) (cols M)))
  else Err IndexOutOfBounds.

Definition row (M : mat) (i : nat) : vec := map (fun c => nth i c 0) (cols M).

Definition trans (M : mat) : mat :=
  mkMat (n_cols M) (n_rows M) (map (row M) (seq 0 (n_rows M))).

Definition mat_vec (M : mat) (v : vec) : vec :=
  map (fun i => dot (row M i) v) (seq 0 (n_rows M)).

(** [A * B]. *)
Definition mat_mul (A B : mat) : result mat :=
  if (n_cols A =? n_rows B)%nat then
    Ok (mkMat (n_rows A) (n_cols B) (map (mat_vec A) (cols B)))
  else Err IncompatibleDims.

(** [A - B]. *)
Definition mat_sub (A B : mat) : result mat :=
  if (n_rows A =? n_rows B)%nat && (n_cols A =? n_cols B)%nat then
    Ok (mkMat (n_rows A) (n_cols A) (map2 vsub (cols A) (cols B)))
  else Err IncompatibleDims.

(** [abs(M)]. *)
Definition mat_abs (M : mat) : mat :=
  mkMat (n_rows M) (n_cols M) (map vabs (cols M)).

(** [sum(sum(M))]: the column sums, then their sum. *)
Definition mat_sum (M : mat) : Q := vsum (map vsum (cols M)).

(** [mean(mean(M))]: the column means, then their mean (of a matrix that
    has elements). *)
Definition mat_mean (M : mat) : Q :=
  vsum (map (fun c => vsum c / inject_Z (Z.of_nat (n_rows M))) (cols M))
  / inject_Z (Z.of_nat (n_cols M)).

(** [clamp(M, lo, hi)]. *)
Definition clamp_val (lo hi v : Q) : Q :=
  if Qltb v lo then lo else if Qltb hi v then hi else v.

Definition clamp (M : mat) (lo hi : Q) : mat :=
  mkMat (n_rows M) (n_cols M) (map (map (clamp_val lo hi)) (cols M)).

(** [normalise(M, 1)]: every column divided by its 1-norm; a column whose
    norm is zero is divided by 1. *)
Definition norm1 (v : vec) : Q := vsum (vabs v).

Definition normalise_col (v : vec) : vec :=
  let nv := norm1 v in
  let dv := if Qeq_bool nv 0 then 1 else nv in
  map (fun q => q / dv) v.

Definition normalise1 (M : mat) : mat :=
  mkMat (n_rows M) (n_cols M) (map normalise_col (cols M)).

(** Lines 104-105 and 441-442: the post-projection. *)
Definition post_projection (X : mat) : mat := normalise1 (clamp X 0 1).

(** Lines 104-107 and 441-444: the end of both solvers, from the state the
    iteration loop leaves (the iterate and the printed log). *)
Definition return_projected (r : mat * list Q) : result mat :=
  Ok (post_projection (fst r)).

(** ** The direction selector (lines 45-76 and 355-392) *)

(** The locals [i1], [i2], [i1_val], [i2_val]; the two running minima are
    declared [int]. *)
Record scan : Type := mkScan { i1 : nat; i2 : nat; i1_val : Z; i2_val : Z }.

(** One turn of the loop over the rows [i] of the gradient column. *)
Definition scan_step (g x : vec) (s : scan) (i : nat) : scan :=
  let gi := nth i g 0 in
  let s1 :=
    if Qltb gi (inject_Z (i1_val s))
    then mkScan i (i2 s) (double_to_int gi) (i2_val s)
    else s in
  if Qltb 0 (nth i x 0) then
    if Qltb gi (inject_Z (i2_val s1))
    then mkScan (i1 s1) i (i1_val s1) (double_to_int gi)
    else s1
  else s1.

Definition select_vertices (g x : vec) : scan :=
  fold_left (scan_step g x) (seq 0 (length g)) (mkScan 0 0 1000 1000).

Definition d_FW (s : scan) (x : vec) : vec := upd (i1 s) (fun v => 1 + v) (vneg x).
Definition d_A (s : scan) (x : vec) : vec := upd (i2 s) (fun v => v - 1) x.

(** What a column visit computes before the step length. *)
Record step : Type := mkStep {
  at_i1 : nat;
  at_i2 : nat;
  forward : bool;        (* [direction == +1] *)
  d : vec;
  alpha_max : xdouble
}.

(** Lines 62-76: the away bound is taken at [i1]. *)
Definition base_direction (g x : vec) : step :=
  let s := select_vertices g x in
  if Qltb (dot g (d_FW s x)) (dot g (d_A s x))
  then mkStep (i1 s) (i2 s) true (d_FW s x) (Fin 1)
  else mkStep (i1 s) (i2 s) false (d_A s x)
              (fdiv (nth (i1 s) x 0) (1 - nth (i1 s) x 0)).

(** Lines 375-392: the away bound is taken at [i2]. *)
Definition FW_direction (g x : vec) : step :=
  let s := select_vertices g x in
  if Qltb (dot g (d_FW s x)) (dot g (d_A s x))
  then mkStep (i1 s) (i2 s) true (d_FW s x) (Fin 1)
  else mkStep (i1 s) (i2 s) false (d_A s x)
              (fdiv (nth (i2 s) x 0) (1 - nth (i2 s) x 0)).

(** Line 89: [double alpha = 2.0 / (it + 2)]. *)
Definition base_alpha (it : Z) : Q := 2 / inject_Z (it + 2).

(** Lines 415-417: [double alpha = 2 / (it + 2)] divides two [int]s;
    then [alpha = min(alpha, alpha_max)]. *)
Definition FW_alpha (it : Z) (amax : xdouble) : xdouble :=
  xmin (Fin (inject_Z (Z.quot 2 (it + 2)))) amax.

(** [for (int k = 0; k < n; k++) body], a body that may raise. *)
Definition for_each {St : Type} (n : nat) (body : St -> nat -> result St)
           (s : St) : result St :=
  fold_left (fun acc k => s' <- acc ;; body s' k) (seq 0 n) (Ok s).

(** Lines 41-92: the visit of column [k] writes [x + alpha*d] into [X]. *)
Definition base_new_col (g x : vec) (it : Z) : vec :=
  vadd x (vscale (base_alpha it) (d (base_direction g x))).

Definition base_update_col (grad : mat) (it : Z) (X : mat) (k : nat) : result mat :=
  g <- col grad k ;;
  x <- col X k ;;
  Ok (set_col X k (base_new_col g x it)).

(** Lines 348-422: the visit of column [k] computes the direction, [q] and
    the step length; the assignment to [X.col(k)] is commented out. *)
Definition FW_visit_col (A B grad AX : mat) (it : Z) (X : mat) (k : nat)
  : result (step * vec * xdouble) :=
  g <- col grad k ;;
  x <- col X k ;;
  b <- col B k ;;
  let st := FW_direction g x in
  let q := if forward st
           then vsub (unsafe_col A (at_i1 st)) (unsafe_col AX k)
           else vsub (unsafe_col AX k) (unsafe_col A (at_i2 st)) in
  Ok (st, q, FW_alpha it (alpha_max st)).

Definition FW_update_col (A B grad AX : mat) (it : Z) (X : mat) (k : nat)
  : result mat :=
  _ <- FW_visit_col A B grad AX it X k ;;
  Ok X.

(** Lines 16-17 and 317-318. *)
Definition effective_max_iter (A : mat) (max_iter : Z) : Z :=
  if (max_iter =? -1)%Z then Z.of_nat (n_cols A) else max_iter.

(** Lines 23-29 and 323-329: [X = zeros(size(tmp))], then one unit entry per
    column at the row of the largest score. *)
Definition init_col (tmp : mat) (X : mat) (j : nat) : result mat :=
  v <- col tmp j ;;
  i <- index_max v ;;
  set_elem X i j 1.

Definition one_hot_init (tmp : mat) : result mat :=
  for_each (n_cols tmp) (init_col tmp) (zeros (n_rows tmp) (n_cols tmp)).

(** ** The two solvers *)

Section Solver.

(** Armadillo's [cor(A, B)], the matrix of the correlation coefficients
    between the columns of [A] and the columns of [B].  It takes square
    roots, so it is a parameter of the development. *)
Variable cor : mat -> mat -> result mat.

(** Lines 19-34 and 320-334: everything before the iteration loop. *)
Definition setup (A B : mat) : result (mat * mat * mat) :=
  tmp <- cor A B ;;
  X <- one_hot_init tmp ;;
  let At := trans A in
  AtA <- mat_mul At A ;;
  AtB <- mat_mul At B ;;
  Ok (X, AtA, AtB).

(** Lines 37-102.  [n] turns remain, [it] is the loop counter; [log] is
    what [printf] has shown of [res] so far, one value per turn. *)
Fixpoint base_loop (A B AtA AtB : mat) (min_diff : Q) (n : nat) (it : Z)
         (X old_X : mat) (log : list Q) : result (mat * list Q) :=
  match n with
  | O => Ok (X, log)
  | S n' =>
      P <- mat_mul AtA X ;;
      grad <- mat_sub P AtB ;;
      AX <- mat_mul A X ;;
      obj <- mat_sub AX B ;;
      X' <- for_each (n_cols X) (base_update_col grad it) X ;;
      D <- mat_sub old_X X' ;;
      let res := mat_sum (mat_abs D) / inject_Z (Z.of_nat (n_cols X')) in
      if Qltb res min_diff then Ok (X', log ++ [res])
      else base_loop A B AtA AtB min_diff n' (it + 1)%Z X' X' (log ++ [res])
  end.

(** Lines 339-436; the test of [res] against [min_diff] is commented
    out. *)
Fixpoint FW_loop (A B AtA AtB : mat) (n : nat) (it : Z)
         (X old_X : mat) (log : list Q) : result (mat * list Q) :=
  match n with
  | O => Ok (X, log)
  | S n' =>
      P <- mat_mul AtA X ;;
      grad <- mat_sub P AtB ;;
      AX <- mat_mul A X ;;
      obj <- mat_sub AX B ;;
      X' <- for_each (n_cols X) (FW_update_col A B grad AX it) X ;;
      D <- mat_sub old_X X' ;;
      let res := mat_mean (mat_abs D) in
      FW_loop A B AtA AtB n' (it + 1)%Z X' X' (log ++ [res])
  end.

(** The state at the end of the iteration loop, with the printed log. *)
Definition base_iterate (A B : mat) (max_iter : Z) (min_diff : Q)
  : result (mat * list Q) :=
  let m := effective_max_iter A max_iter in
  s <- setup A B ;;
  let '(X, AtA, AtB) := s in
  base_loop A B AtA AtB min_diff (Z.to_nat m) 0 X X [].

Definition FW_iterate (A B : mat) (max_iter : Z) (min_diff : Q)
  : result (mat * list Q) :=
  let m := effective_max_iter A max_iter in
  s <- setup A B ;;
  let '(X, AtA, AtB) := s in
  FW_loop A B AtA AtB (Z.to_nat m) 0 X X [].

Definition run_simplex_regression_FW_base (A B : mat) (max_iter : Z)
           (min_diff : Q) : result mat :=
  r <- base_iterate A B max_iter min_diff ;;
  return_projected r.

Definition run_simplex_regression_FW (A B : mat) (max_iter : Z)
           (min_diff : Q) : result mat :=
  r <- FW_iterate A B max_iter min_diff ;;
  return_projected r.

End Solver.

(** ** Vocabulary of the statements *)

(** A point of the simplex: entries in [0,1] that sum to 1. *)
Definition on_simplex (v : vec) : Prop :=
  Forall (fun q => 0 <= q /\ q <= 1) v /\ vsum v == 1.

(** The inputs the solvers are meant for. *)
Definition valid_input (A B : mat) : Prop :=
  wf_mat A /\ wf_mat B /\ n_rows A = n_rows B /\
  (1 <= n_rows A)%nat /\ (1 <= n_cols A)%nat /\ (1 <= n_cols B)%nat.

(** [tmp] has the shape of a correlation matrix of [A] and [B]. *)
Definition cor_shape (A B tmp : mat) : Prop :=
  wf_mat tmp /\ n_rows tmp = n_cols A /\ n_cols tmp = n_cols B.

(** The vertex [e_i] of the simplex in dimension [k]. *)
Definition unit_vec (k i : nat) : vec := upd i (fun _ => 1) (repeat 0 k).

(** The position [index_max] returns on a vector that has elements. *)
Definition arg_max (v : vec) : nat :=
  match v with
  | [] => O
  | v0 :: l => index_max_from 0 v0 1 l
  end.

(** The one-hot matrix the initializer builds from the scores [tmp]. *)
Definition one_hot (tmp : mat) : mat :=
  mkMat (n_rows tmp) (n_cols tmp)
        (map (fun v => unit_vec (n_rows tmp) (arg_max v)) (cols tmp)).

(** A well-formed [r] by [c] matrix. *)
Definition shape (r c : nat) (M : mat) : Prop :=
  wf_mat M /\ n_rows M = r /\ n_cols M = c.

(** An [r] by [c] matrix whose columns all sum to 1 (entries of any sign). *)
Definition unit_sums (r c : nat) (X : mat) : Prop :=
  shape r c X /\ Forall (fun v => vsum v == 1) (cols X).

(** What the solver owes its caller on inputs [A] and [B]. *)
Definition feasible_result (A B : mat) (r : result mat) : Prop :=
  exists X, r = Ok X /\ shape (n_cols A) (n_cols B) X /\
            Forall on_simplex (cols X).

(** Line 38 at [it = 0]: the gradient the first turn of the loop computes. *)
Definition first_gradient (cor : mat -> mat -> result mat) (A B : mat)
  : result mat :=
  s <- setup cor A B ;;
  let '(X, AtA, AtB) := s in
  P <- mat_mul AtA X ;;
  mat_sub P AtB.

(** Entries brought to lowest terms, to display computed matrices. *)
Definition shown (M : mat) : list (list Q) := map (map Qred) (cols M).

Definition shown_result (r : result mat) : option (list (list Q)) :=
  match r with
  | Ok X => Some (shown X)
  | Err _ => None
  end.

(** The iterate at the end of the loop and the printed values of [res]. *)
Definition shown_state (r : result (mat * list Q))
  : option (list (list Q) * list Q) :=
  match r with
  | Ok (X, log) => Some (shown X, map Qred log)
  | Err _ => None
  end.

(** ** Inputs used in the examples

    All have two rows, so every correlation coefficient is 1 or -1
    according to whether the two columns vary in the same direction;
    [cor_is tmp] stands for [cor] on an input whose correlation matrix,
    computed by hand, is [tmp]. *)
Definition I2 : mat := mkMat 2 2 [[1; 0]; [0; 1]].
Definition column2 (a b : Q) : mat := mkMat 2 1 [[a; b]].
Definition cor_is (tmp : mat) : mat -> mat -> result mat := fun _ _ => Ok tmp.
Definition second_best : mat := column2 (-1) 1.   (* the initializer picks row 1 *)
Definition first_best : mat := column2 1 (-1).    (* the initializer picks row 0 *)
Definition tol : Q := 1 # 10000000000000000.      (* the default 1e-16 *)
Definition diag_1_100 : mat := mkMat 2 2 [[1; 0]; [0; 100]].
Definition minus_I2 : mat := mkMat 2 2 [[-1; 0]; [0; -1]].

(** Scenario 3 of the specification: [A] with 3 rows, [B] with 4 rows. *)
Definition A_3x2 : mat := mkMat 3 2 [[1; 0; 0]; [0; 1; 0]].
Definition B_4x1 : mat := mkMat 4 1 [[1; 0; 0; 0]].

(** A valid input with a single row: [A] is (1 2), [B] is (1 3).
    Armadillo's [cor] reads an operand with a single row as one vector of
    observations, so [cor(A, B)] is the 1 by 1 matrix holding the
    correlation coefficient of (1, 2) and (1, 3), which is 1. *)
Definition A_1x2 : mat := mkMat 1 2 [[1]; [2]].
Definition B_1x2 : mat := mkMat 1 2 [[1]; [3]].
Definition one_by_one : mat := mkMat 1 1 [[1]].

(** ** Further vocabulary *)

(** Equality of columns and of matrices entry by entry, as rationals. *)
Definition col_equiv (a b : vec) : Prop := Forall2 Qeq a b.

Definition mat_equiv (X Y : mat) : Prop :=
  n_rows X = n_rows Y /\ n_cols X = n_cols Y /\
  Forall2 col_equiv (cols X) (cols Y).

(** The number of turns the loop header allows. *)
Definition turns (A : mat) (max_iter : Z) : nat :=
  Z.to_nat (effective_max_iter A max_iter).

(** [r] is a first position of the largest element of [v]. *)
Definition first_maximum (v : vec) (r : nat) : Prop :=
  (r < length v)%nat /\
  (forall i, (i < length v)%nat -> nth i v 0 <= nth r v 0) /\
  (forall i, (i < r)%nat -> nth i v 0 < nth r v 0).


(** The scan of lines 49-60, one running minimum at a time: the row and the
    [int] it keeps, over the rows [keep] admits ([i1]: every row; [i2]: the
    rows where [x] is positive). *)
Definition min_step (keep : nat -> bool) (g : vec) (s : nat * Z) (i : nat)
  : nat * Z :=
  if keep i && Qltb (nth i g 0) (inject_Z (snd s))
  then (i, double_to_int (nth i g 0))
  else s.

Definition in_support (x : vec) (i : nat) : bool := Qltb 0 (nth i x 0).

(** What holds of a running minimum [s] once the rows below [m] are done:
    it is untouched and no admitted row is below 1000, or it names an
    admitted row whose entry is below 1000 and within 1 of every admitted
    entry. *)
Definition scan_inv (keep : nat -> bool) (g : vec) (m : nat) (s : nat * Z)
  : Prop :=
  (s = (O, 1000%Z) /\
   forall j, (j < m)%nat -> keep j = true -> 1000 <= nth j g 0) \/
  ((fst s < m)%nat /\ keep (fst s) = true /\
   snd s = double_to_int (nth (fst s) g 0) /\
   nth (fst s) g 0 < 1000 /\
   (forall j, (j < m)%nat -> keep j = true ->
              inject_Z (snd s) - 1 < nth j g 0) /\
   (forall j, (j < m)%nat -> keep j = true ->
              nth (fst s) g 0 < nth j g 0 + 1)).

(** What holds of it whatever the size of the entries: the [int] it keeps
    is at most 1000, and it is untouched with no admitted row below 1000,
    or it names an admitted row whose entry is below 1000. *)
Definition scan_reach (keep : nat -> bool) (g : vec) (m : nat) (s : nat * Z)
  : Prop :=
  (INT_MIN <= snd s <= 1000)%Z /\
  ((s = (O, 1000%Z) /\
    forall j, (j < m)%nat -> keep j = true -> 1000 <= nth j g 0) \/
   ((fst s < m)%nat /\ keep (fst s) = true /\ nth (fst s) g 0 < 1000)).

(** No entry of [g] is so negative that its conversion to [int] is
    undefined. *)
Definition converts (g : vec) : Prop :=
  forall j, (j < length g)%nat -> inject_Z INT_MIN - 1 < nth j g 0.

(** ** [run_simplex_regression_FW_test1] (lines 112-215) *)

(** [M(i,j)] read and [M(i,j) = f (M(i,j))], both bounds-checked. *)
Definition get_elem (M : mat) (i j : nat) : result Q :=
  if (i <? n_rows M)%nat && (j <? n_cols M)%nat
  then Ok (nth i (nth j (cols M) []) 0)
  else Err IndexOutOfBounds.

Definition upd_elem (M : mat) (i j : nat) (f : Q -> Q) : result mat :=
  if (i <? n_rows M)%nat && (j <? n_cols M)%nat
  then Ok (mkMat (n_rows M) (n_cols M) (upd j (upd i f) (cols M)))
  else Err IndexOutOfBounds.

(** [v(j)] read and written in a vector of indices or of step bounds. *)
Definition get_at {T : Type} (v : list T) (j : nat) : result T :=
  match nth_error v j with
  | Some a => Ok a
  | None => Err IndexOutOfBounds
  end.

Definition set_at {T : Type} (v : list T) (j : nat) (a : T) : result (list T) :=
  if (j <? length v)%nat then Ok (upd j (fun _ => a) v)
  else Err IndexOutOfBounds.

(** [A * d] for a vector [d]. *)
Definition mat_vec_checked (A : mat) (v : vec) : result vec :=
  if (n_cols A =? length v)%nat then Ok (mat_vec A v) else Err IncompatibleDims.

(** Lines 117-118: [zeros(A.n_cols, B.n_cols)], then [X.row(0).ones()]. *)
Definition test1_init (A B : mat) : result mat :=
  let X := zeros (n_cols A) (n_cols B) in
  if (0 <? n_rows X)%nat
  then Ok (mkMat (n_rows X) (n_cols X) (map (upd 0 (fun _ => 1)) (cols X)))
  else Err IndexOutOfBounds.

(** Lines 149-152: an entry of [grad % mask], where the mask is infinite at
    the zero entries of [X] and 1.0 elsewhere. *)
Definition masked_entry (g x : Q) : xdouble :=
  if Qeq_bool x 0 then
    (if Qeq_bool g 0 then NaN else if Qltb 0 g then PInf else NInf)
  else Fin (g * 1).

(** [index_min] of a column: the running minimum starts at +infinity and
    moves on a strictly smaller entry, so an entry that is +infinity or NaN
    is never selected. *)
Fixpoint index_min_from (best_i : nat) (best : xdouble) (i : nat)
         (l : list xdouble) : nat :=
  match l with
  | [] => best_i
  | v :: l' =>
      if xltb v best then index_min_from i v (S i) l'
      else index_min_from best_i best (S i) l'
  end.

Definition index_min_col (v : list xdouble) : nat := index_min_from 0 PInf 0 v.

(** Lines 153-154: [index_min(grad)] and [index_min(masked_grad)], one row
    index per column. *)
Definition test1_ii1 (grad : mat) : list nat :=
  map (fun g => index_min_col (map Fin g)) (cols grad).

Definition test1_ii2 (grad X : mat) : list nat :=
  map index_min_col (map2 (map2 masked_entry) (cols grad) (cols X)).

(** Lines 156-164: the step bounds and the two direction matrices.
    [alpha_caps] is not initialised in the source; each of its entries is
    written before it is read. *)
Record directions : Type := mkDirections {
  alpha_caps : list xdouble;
  D_FW : mat;
  D_A : mat
}.

Definition test1_prepare_col (X : mat) (ii1 ii2 : list nat) (s : directions)
           (j : nat) : result directions :=
  r1 <- get_at ii1 j ;;
  x <- get_elem X r1 j ;;
  caps <- set_at (alpha_caps s) j (fdiv x (1 - x)) ;;
  DFW <- upd_elem (D_FW s) r1 j (fun v => v + 1) ;;
  r2 <- get_at ii2 j ;;
  DA <- upd_elem (D_A s) r2 j (fun v => v - 1) ;;
  Ok (mkDirections caps DFW DA).

Definition mat_neg (M : mat) : mat :=
  mkMat (n_rows M) (n_cols M) (map vneg (cols M)).

Definition test1_prepare (X : mat) (ii1 ii2 : list nat) : result directions :=
  for_each (n_cols X) (test1_prepare_col X ii1 ii2)
           (mkDirections (repeat (Fin 0) (n_cols X)) (mat_neg X) X).

(** Line 192: [alpha = min(alpha, alpha_max)].  A bound [x/(1-x)] is finite
    or +infinity, so the minimum is finite. *)
Definition test1_clip (alpha : Q) (amax : xdouble) : Q :=
  match xmin (Fin alpha) amax with
  | Fin a => a
  | _ => alpha
  end.

(** Lines 181-189: the step length of the line search. *)
Definition test1_line_search (A obj : mat) (g dir : vec) (k : nat) : result Q :=
  Ad <- mat_vec_checked A dir ;;
  let e1 := dot Ad Ad in
  if Qeq_bool e1 0 then Ok 0
  else
    o <- col obj k ;;
    let e2 := 2 * dot o Ad in
    let e3 := (1 # 2) * dot g dir in
    Ok ((e3 - e2) / e1).

(** Lines 166-195: the visit of column [k]. *)
Definition test1_update_col (A grad obj : mat) (s : directions) (X : mat)
           (k : nat) : result mat :=
  g <- col grad k ;;
  x <- col X k ;;
  dfw <- col (D_FW s) k ;;
  da <- col (D_A s) k ;;
  sel <- (if Qltb (dot g dfw) (dot g da) then Ok (dfw, Fin 1)
          else cap <- get_at (alpha_caps s) k ;; Ok (da, cap)) ;;
  let '(dir, amax) := sel in
  alpha <- test1_line_search A obj g dir k ;;
  Ok (set_col X k (vadd x (vscale (test1_clip alpha amax) dir))).

(** Lines 145-207: the loop; no value of [res] is computed or tested. *)
Fixpoint test1_loop (A B At AtA : mat) (n : nat) (X : mat) : result mat :=
  match n with
  | O => Ok X
  | S n' =>
      P <- mat_mul AtA X ;;
      AtB <- mat_mul At B ;;
      grad <- mat_sub P AtB ;;
      AX <- mat_mul A X ;;
      obj <- mat_sub AX B ;;
      s <- test1_prepare X (test1_ii1 grad) (test1_ii2 grad X) ;;
      X' <- for_each (n_cols X) (test1_update_col A grad obj s) X ;;
      test1_loop A B At AtA n' X'
  end.

(** Lines 112-215; [min_diff] is not used and there is no
    post-projection. *)
Definition run_simplex_regression_FW_test1 (A B : mat) (max_iter : Z)
           (min_diff : Q) : result mat :=
  let m := effective_max_iter A max_iter in
  X <- test1_init A B ;;
  let At := trans A in
  AtA <- mat_mul At A ;;
  test1_loop A B At AtA (Z.to_nat m) X.

(** The starting point of [run_simplex_regression_FW_test1]: all the mass
    of every column on row 0. *)
Definition all_on_first (k n : nat) : mat := mkMat k n (repeat (unit_vec k 0) n).



(** ** [signed_cluster] and [unsigned_cluster] of the Python wrapper
    (wrapper.cc, lines 483-524)

    Both build the vector [initial_clusters_uvec] of [A.n_rows] labels that
    they hand to the clustering routine: a copy of the caller's vector when
    it has one label per row, the labels 0, 1, 2, ... otherwise.  The
    vector is not initialised in the source; each of its entries is written
    before it is read. *)
Definition copy_label (given acc : list nat) (i : nat) : result (list nat) :=
  a <- get_at given i ;;
  set_at acc i a.

Definition own_label (acc : list nat) (i : nat) : result (list nat) :=
  set_at acc i i.

Definition initial_clusters_uvec (n : nat) (given : list nat)
  : result (list nat) :=
  let v := repeat O n in
  if (length given =? n)%nat
  then for_each n (copy_label given) v
  else for_each n own_label v.

(** * Properties *)

(** ** Scalars *)

Lemma Qltb_true (a b : Q) : Qltb a b = true <-> a < b.
Proof.
  unfold Qltb. rewrite negb_true_iff.
  split; intro H.
  - apply Qnot_le_lt. intro Hle. apply Qle_bool_iff in Hle. congruence.
  - destruct (Qle_bool b a) eqn:E; [| reflexivity].
    apply Qle_bool_iff in E. exfalso. apply (Qlt_not_le _ _ H E).
Qed.

Lemma Qltb_false (a b : Q) : Qltb a b = false <-> b <= a.
Proof.
  unfold Qltb. rewrite negb_false_iff. apply Qle_bool_iff.
Qed.

(** ** Lists *)

Lemma upd_length {A : Type} (i : nat) (f : A -> A) (l : list A) :
  length (upd i f l) = length l.
Proof.
  revert i; induction l as [| a l IH]; intros [| i]; simpl; auto.
Qed.

Lemma Forall_upd {A : Type} (P : A -> Prop) (i : nat) (f : A -> A) (l : list A) :
  Forall P l -> (forall a, P a -> P (f a)) -> Forall P (upd i f l).
Proof.
  intros Hl Hf. revert i.
  induction Hl as [| a l Ha Hl IH]; intros [| i]; simpl; constructor; auto.
Qed.

Lemma map2_length {A B C : Type} (f : A -> B -> C) (l : list A) (m : list B) :
  length l = length m -> length (map2 f l m) = length l.
Proof.
  revert m; induction l as [| a l IH]; intros [| b m]; simpl; intro H;
    try discriminate; auto.
Qed.

Lemma Forall_map2 {A B C : Type} (f : A -> B -> C) (P : A -> Prop)
      (Q' : B -> Prop) (R : C -> Prop) (l : list A) (m : list B) :
  (forall a b, P a -> Q' b -> R (f a b)) ->
  Forall P l -> Forall Q' m -> Forall R (map2 f l m).
Proof.
  intros Hf Hl. revert m.
  induction Hl as [| a l Ha Hl IH]; intros m Hm; simpl; [constructor |].
  destruct Hm as [| b m Hb Hm]; constructor; auto.
Qed.

(** ** Sums *)

Lemma vsum_upd (i : nat) (f : Q -> Q) (l : vec) :
  (i < length l)%nat ->
  vsum (upd i f l) == vsum l + (f (nth i l 0) - nth i l 0).
Proof.
  revert i; induction l as [| a l IH]; intros i Hi; simpl in Hi; [lia |].
  destruct i as [| i]; simpl.
  - ring.
  - rewrite IH by lia. ring.
Qed.

Lemma vsum_vneg (x : vec) : vsum (vneg x) == - vsum x.
Proof.
  induction x as [| a x IH]; simpl; [reflexivity | rewrite IH; ring].
Qed.

Lemma vsum_vscale (s : Q) (v : vec) : vsum (vscale s v) == s * vsum v.
Proof.
  induction v as [| a v IH]; simpl; [ring | rewrite IH; ring].
Qed.

Lemma vsum_vadd (a b : vec) :
  length a = length b -> vsum (vadd a b) == vsum a + vsum b.
Proof.
  revert b; induction a as [| p a IH]; intros [| q b]; simpl; intro H;
    try discriminate.
  - ring.
  - unfold vadd in IH. rewrite IH by lia. ring.
Qed.

Lemma vsum_nonneg (l : vec) : Forall (fun q => 0 <= q) l -> 0 <= vsum l.
Proof.
  induction 1 as [| a l Ha Hl IH]; simpl; lra.
Qed.

Lemma vsum_vabs_nonneg (l : vec) :
  Forall (fun q => 0 <= q) l -> vsum (vabs l) == vsum l.
Proof.
  induction 1 as [| a l Ha Hl IH]; simpl; [reflexivity |].
  rewrite IH. rewrite (Qabs_pos a Ha). reflexivity.
Qed.

Lemma entry_le_vsum (l : vec) (q : Q) :
  Forall (fun q => 0 <= q) l -> In q l -> q <= vsum l.
Proof.
  induction 1 as [| a l Ha Hl IH]; simpl; intros Hin; [contradiction |].
  pose proof (vsum_nonneg l Hl).
  destruct Hin as [-> | Hin]; [lra | specialize (IH Hin); lra].
Qed.

Lemma vsum_div (s : Q) (l : vec) :
  vsum (map (fun q => q / s) l) == vsum l / s.
Proof.
  induction l as [| a l IH]; simpl.
  - unfold Qdiv. ring.
  - rewrite IH. unfold Qdiv. ring.
Qed.

(** ** The post-projection lands on the simplex *)

Lemma clamp_val_range (v : Q) : 0 <= clamp_val 0 1 v /\ clamp_val 0 1 v <= 1.
Proof.
  unfold clamp_val.
  destruct (Qltb v 0) eqn:E0; [lra |].
  apply Qltb_false in E0.
  destruct (Qltb 1 v) eqn:E1; [lra |].
  apply Qltb_false in E1. lra.
Qed.

Lemma clamp_val_pos (v : Q) : 0 < v -> 0 < clamp_val 0 1 v.
Proof.
  intro Hv. unfold clamp_val.
  destruct (Qltb v 0) eqn:E0; [apply Qltb_true in E0; lra |].
  destruct (Qltb 1 v); lra.
Qed.

Lemma clamp_col_range (c : vec) :
  Forall (fun q => 0 <= q /\ q <= 1) (map (clamp_val 0 1) c).
Proof.
  induction c as [| a c IH]; simpl; constructor; auto using clamp_val_range.
Qed.

Lemma range_nonneg (c : vec) :
  Forall (fun q => 0 <= q /\ q <= 1) c -> Forall (fun q => 0 <= q) c.
Proof.
  intro H. eapply Forall_impl; [| exact H]. simpl. intros a [Ha _]. exact Ha.
Qed.

Lemma vsum_clamp_pos (l : vec) :
  0 < vsum l -> 0 < vsum (map (clamp_val 0 1) l).
Proof.
  induction l as [| a l IH]; simpl; intro H; [lra |].
  pose proof (vsum_nonneg _ (range_nonneg _ (clamp_col_range l))) as Hrest.
  destruct (Qlt_le_dec 0 a) as [Ha | Ha].
  - pose proof (clamp_val_pos a Ha). lra.
  - assert (Hl : 0 < vsum l) by lra.
    specialize (IH Hl). pose proof (clamp_val_range a) as [H0 _]. lra.
Qed.

Lemma normalise_col_simplex (c : vec) :
  Forall (fun q => 0 <= q /\ q <= 1) c -> 0 < vsum c ->
  on_simplex (normalise_col c).
Proof.
  intros Hr Hpos.
  pose proof (range_nonneg c Hr) as Hnn.
  assert (Hn : norm1 c == vsum c) by (apply vsum_vabs_nonneg; exact Hnn).
  unfold normalise_col.
  destruct (Qeq_bool (norm1 c) 0) eqn:E.
  { apply Qeq_bool_eq in E. lra. }
  assert (Hnpos : 0 < norm1 c) by lra.
  split.
  - apply Forall_forall. intros y Hy.
    apply in_map_iff in Hy. destruct Hy as [q [<- Hq]].
    pose proof (entry_le_vsum c q Hnn Hq) as Hle.
    rewrite Forall_forall in Hnn. specialize (Hnn q Hq). simpl in Hnn.
    split.
    + apply Qle_shift_div_l; [exact Hnpos | lra].
    + apply Qle_shift_div_r; [exact Hnpos | lra].
  - rewrite vsum_div. rewrite <- Hn. field. lra.
Qed.

Lemma post_projection_col_simplex (c : vec) :
  vsum c == 1 -> on_simplex (normalise_col (map (clamp_val 0 1) c)).
Proof.
  intro H. apply normalise_col_simplex.
  - apply clamp_col_range.
  - apply vsum_clamp_pos. lra.
Qed.

(** ** The direction selector stays inside the column *)

Lemma scan_step_bound (g x : vec) (s : scan) (i n : nat) :
  (i1 s < n)%nat -> (i2 s < n)%nat -> (i < n)%nat ->
  (i1 (scan_step g x s i) < n)%nat /\ (i2 (scan_step g x s i) < n)%nat.
Proof.
  intros H1 H2 Hi. unfold scan_step.
  destruct (Qltb (nth i g 0) (inject_Z (i1_val s)));
    destruct (Qltb 0 (nth i x 0)); simpl;
    try match goal with
        | |- context [if ?b then _ else _] => destruct b
        end; simpl; auto.
Qed.

Lemma scan_fold_bound (g x : vec) (n : nat) (l : list nat) (s : scan) :
  Forall (fun i => (i < n)%nat) l -> (i1 s < n)%nat -> (i2 s < n)%nat ->
  (i1 (fold_left (scan_step g x) l s) < n)%nat /\
  (i2 (fold_left (scan_step g x) l s) < n)%nat.
Proof.
  intro Hl. revert s.
  induction Hl as [| i l Hi Hl IH]; intros s H1 H2; simpl; [auto |].
  destruct (scan_step_bound g x s i n H1 H2 Hi) as [H1' H2'].
  apply IH; assumption.
Qed.

Lemma select_vertices_bound (g x : vec) :
  (1 <= length g)%nat ->
  (i1 (select_vertices g x) < length g)%nat /\
  (i2 (select_vertices g x) < length g)%nat.
Proof.
  intro Hg. unfold select_vertices.
  apply scan_fold_bound; simpl; try lia.
  apply Forall_forall. intros i Hi. apply in_seq in Hi. lia.
Qed.

(** ** A column visit of the base solver keeps the column sum *)

Lemma vsum_d_FW (s : scan) (x : vec) :
  (i1 s < length x)%nat -> vsum (d_FW s x) == 1 - vsum x.
Proof.
  intro Hi. unfold d_FW.
  rewrite vsum_upd by (unfold vneg; rewrite length_map; exact Hi).
  rewrite vsum_vneg. ring.
Qed.

Lemma vsum_d_A (s : scan) (x : vec) :
  (i2 s < length x)%nat -> vsum (d_A s x) == vsum x - 1.
Proof.
  intro Hi. unfold d_A. rewrite vsum_upd by exact Hi. ring.
Qed.

Lemma d_FW_length (s : scan) (x : vec) : length (d_FW s x) = length x.
Proof. unfold d_FW, vneg. rewrite upd_length, length_map. reflexivity. Qed.

Lemma d_A_length (s : scan) (x : vec) : length (d_A s x) = length x.
Proof. unfold d_A. apply upd_length. Qed.

Lemma base_direction_sum (g x : vec) :
  length g = length x -> (1 <= length x)%nat -> vsum x == 1 ->
  vsum (d (base_direction g x)) == 0 /\
  length (d (base_direction g x)) = length x.
Proof.
  intros Hlen Hk Hx.
  destruct (select_vertices_bound g x) as [H1 H2]; [lia |].
  rewrite Hlen in H1, H2.
  unfold base_direction.
  destruct (Qltb _ _); simpl.
  - rewrite vsum_d_FW by exact H1. rewrite d_FW_length. split; [lra | reflexivity].
  - rewrite vsum_d_A by exact H2. rewrite d_A_length. split; [lra | reflexivity].
Qed.

Lemma base_new_col_sum (g x : vec) (it : Z) :
  length g = length x -> (1 <= length x)%nat -> vsum x == 1 ->
  vsum (base_new_col g x it) == 1 /\
  length (base_new_col g x it) = length x.
Proof.
  intros Hlen Hk Hx.
  destruct (base_direction_sum g x Hlen Hk Hx) as [Hd Hl].
  unfold base_new_col.
  assert (Hsl : length x = length (vscale (base_alpha it) (d (base_direction g x)))).
  { unfold vscale. rewrite length_map. symmetry. exact Hl. }
  split.
  - rewrite vsum_vadd by exact Hsl.
    rewrite vsum_vscale, Hd, Hx. ring.
  - unfold vadd. apply map2_length. exact Hsl.
Qed.

(** ** Loops with a body that may raise *)

Lemma for_each_inv {St : Type} (P : nat -> St -> Prop) (n : nat)
      (body : St -> nat -> result St) (s : St) :
  P O s ->
  (forall k s', (k < n)%nat -> P k s' ->
                exists s'', body s' k = Ok s'' /\ P (S k) s'') ->
  exists s', for_each n body s = Ok s' /\ P n s'.
Proof.
  intros H0. induction n as [| n IH]; intro Hstep.
  - exists s. split; [reflexivity | exact H0].
  - destruct IH as [s1 [E1 P1]].
    { intros k s' Hk. apply Hstep. lia. }
    destruct (Hstep n s1 (Nat.lt_succ_diag_r n) P1) as [s2 [E2 P2]].
    exists s2. split; [| exact P2].
    unfold for_each in *. rewrite seq_S, fold_left_app. simpl.
    rewrite E1. simpl. exact E2.
Qed.

(** ** Shapes *)

Lemma shape_of_wf (M : mat) : wf_mat M -> shape (n_rows M) (n_cols M) M.
Proof. intro H. repeat split; apply H. Qed.

Lemma trans_shape (r c : nat) (M : mat) : shape r c M -> shape c r (trans M).
Proof.
  intros [[Hl Hc] [Hr Hn]]. unfold shape, wf_mat, trans; simpl.
  repeat split; auto.
  - rewrite length_map, length_seq. reflexivity.
  - apply Forall_forall. intros v Hv.
    apply in_map_iff in Hv. destruct Hv as [i [<- _]].
    unfold row. rewrite length_map. exact Hl.
Qed.

Lemma mat_mul_shape (r m c : nat) (A B : mat) :
  n_rows A = r -> n_cols A = m -> shape m c B ->
  exists P, mat_mul A B = Ok P /\ shape r c P.
Proof.
  intros Hr Hm [[Hl Hc] [Hbr Hbc]]. unfold mat_mul.
  replace (n_cols A =? n_rows B)%nat with true
    by (symmetry; apply Nat.eqb_eq; lia).
  eexists. split; [reflexivity |].
  unfold shape, wf_mat; simpl. repeat split; auto.
  - rewrite length_map. exact Hl.
  - apply Forall_forall. intros v Hv.
    apply in_map_iff in Hv. destruct Hv as [w [<- _]].
    unfold mat_vec. rewrite length_map, length_seq. reflexivity.
Qed.

Lemma mat_sub_shape (r c : nat) (A B : mat) :
  shape r c A -> shape r c B ->
  exists D, mat_sub A B = Ok D /\ shape r c D.
Proof.
  intros [[Hl Hc] [Hr Hn]] [[Hl' Hc'] [Hr' Hn']]. unfold mat_sub.
  replace (n_rows A =? n_rows B)%nat with true
    by (symmetry; apply Nat.eqb_eq; lia).
  replace (n_cols A =? n_cols B)%nat with true
    by (symmetry; apply Nat.eqb_eq; lia).
  eexists. split; [reflexivity |].
  unfold shape, wf_mat; simpl. repeat split; auto.
  - rewrite map2_length; lia.
  - eapply Forall_map2; [| exact Hc | exact Hc'].
    simpl. intros a b Ha Hb. unfold vsub. rewrite map2_length; lia.
Qed.

Lemma col_ok (r c : nat) (M : mat) (j : nat) :
  shape r c M -> (j < c)%nat ->
  exists v, col M j = Ok v /\ nth_error (cols M) j = Some v /\ length v = r.
Proof.
  intros [[Hl Hc] [Hr Hn]] Hj. unfold col.
  destruct (nth_error (cols M) j) as [v |] eqn:E.
  - exists v. repeat split.
    rewrite Forall_forall in Hc. rewrite <- Hr. apply Hc.
    eapply nth_error_In. exact E.
  - apply nth_error_None in E. lia.
Qed.

Lemma set_col_shape (r c : nat) (M : mat) (j : nat) (v : vec) :
  shape r c M -> length v = r -> shape r c (set_col M j v).
Proof.
  intros [[Hl Hc] [Hr Hn]] Hv. unfold shape, wf_mat, set_col; simpl.
  repeat split; auto.
  - rewrite upd_length. exact Hl.
  - apply Forall_upd; [exact Hc | intros; lia].
Qed.

(** ** The iteration loop of the base solver keeps every column sum at 1 *)

Lemma base_update_col_inv (r c : nat) (grad X : mat) (it : Z) (k : nat) :
  (1 <= r)%nat -> shape r c grad -> unit_sums r c X -> (k < c)%nat ->
  exists X', base_update_col grad it X k = Ok X' /\ unit_sums r c X'.
Proof.
  intros Hr Hg [Hs Hsum] Hk.
  destruct (col_ok r c grad k Hg Hk) as [g [Eg [_ Lg]]].
  destruct (col_ok r c X k Hs Hk) as [x [Ex [Nx Lx]]].
  unfold base_update_col. rewrite Eg, Ex. simpl.
  eexists. split; [reflexivity |].
  assert (Hx : vsum x == 1).
  { rewrite Forall_forall in Hsum. apply Hsum. eapply nth_error_In. exact Nx. }
  destruct (base_new_col_sum g x it) as [Hsum' Hlen']; try lia; auto.
  split.
  - apply set_col_shape; [exact Hs | lia].
  - unfold set_col; simpl. apply Forall_upd; [exact Hsum | intros; exact Hsum'].
Qed.

Lemma base_columns_inv (r c : nat) (grad X : mat) (it : Z) :
  (1 <= r)%nat -> shape r c grad -> unit_sums r c X ->
  exists X', for_each (n_cols X) (base_update_col grad it) X = Ok X' /\
             unit_sums r c X'.
Proof.
  intros Hr Hg HX.
  assert (Hc : n_cols X = c) by apply HX.
  apply (for_each_inv (fun _ X' => unit_sums r c X')); [exact HX |].
  intros k X' Hk HX'. apply base_update_col_inv; auto. lia.
Qed.

Lemma base_loop_inv (f k c : nat) (A B AtA AtB : mat) (min_diff : Q) (n : nat) :
  (1 <= k)%nat -> shape f k A -> shape f c B -> shape k k AtA -> shape k c AtB ->
  forall (it : Z) (X old_X : mat) (log : list Q),
    unit_sums k c X -> shape k c old_X ->
    exists X' log',
      base_loop A B AtA AtB min_diff n it X old_X log = Ok (X', log') /\
      unit_sums k c X'.
Proof.
  intros Hk HA HB HAtA HAtB.
  induction n as [| n IH]; intros it X old_X log HX Hold.
  - exists X, log. split; [reflexivity | exact HX].
  - simpl.
    destruct HX as [HsX HsumX].
    destruct (mat_mul_shape k k c AtA X) as [P [EP HP]];
      try apply HAtA; auto.
    destruct (mat_sub_shape k c P AtB HP HAtB) as [grad [Eg Hg]].
    destruct (mat_mul_shape f k c A X) as [AX [EAX HAX]];
      try apply HA; auto.
    destruct (mat_sub_shape f c AX B HAX HB) as [obj [Eo Ho]].
    destruct (base_columns_inv k c grad X it Hk Hg (conj HsX HsumX))
      as [X' [EX' HX']].
    destruct (mat_sub_shape k c old_X X' Hold (proj1 HX')) as [D [ED HD]].
    rewrite EP; simpl. rewrite Eg; simpl. rewrite EAX; simpl.
    rewrite Eo; simpl. rewrite EX'; simpl. rewrite ED; simpl.
    destruct (Qltb _ min_diff).
    + exists X', (log ++ [mat_sum (mat_abs D) / inject_Z (Z.of_nat (n_cols X'))]).
      split; [reflexivity | exact HX'].
    + apply IH; [exact HX' | apply HX'].
Qed.

(** ** The iteration loop of [run_simplex_regression_FW] leaves [X] alone *)

Lemma FW_update_col_keeps (r c : nat) (A B grad AX X : mat) (it : Z) (k : nat) :
  shape r c grad -> shape r c X -> wf_mat B -> n_cols B = c -> (k < c)%nat ->
  FW_update_col A B grad AX it X k = Ok X.
Proof.
  intros Hg HX HB HBc Hk.
  destruct (col_ok r c grad k Hg Hk) as [g [Eg _]].
  destruct (col_ok r c X k HX Hk) as [x [Ex _]].
  destruct (col_ok (n_rows B) c B k) as [b [Eb _]]; auto.
  { repeat split; try apply HB. exact HBc. }
  unfold FW_update_col, FW_visit_col. rewrite Eg, Ex, Eb. reflexivity.
Qed.

Lemma FW_columns_keep (r c : nat) (A B grad AX X : mat) (it : Z) :
  shape r c grad -> shape r c X -> wf_mat B -> n_cols B = c ->
  for_each (n_cols X) (FW_update_col A B grad AX it) X = Ok X.
Proof.
  intros Hg HX HB HBc.
  assert (Hc : n_cols X = c) by apply HX.
  destruct (for_each_inv (fun _ X' => X' = X) (n_cols X)
                         (FW_update_col A B grad AX it) X eq_refl)
    as [X' [E ->]]; [| exact E].
  intros k X' Hk ->. exists X. split; [| reflexivity].
  eapply FW_update_col_keeps; eauto. lia.
Qed.

Lemma FW_loop_keeps (f k c : nat) (A B AtA AtB : mat) (n : nat) :
  shape f k A -> shape f c B -> shape k k AtA -> shape k c AtB ->
  forall (it : Z) (X : mat) (log : list Q),
    shape k c X ->
    exists log',
      FW_loop A B AtA AtB n it X X log = Ok (X, log') /\
      length log' = (length log + n)%nat.
Proof.
  intros HA HB HAtA HAtB.
  induction n as [| n IH]; intros it X log HX.
  - exists log. split; [reflexivity | lia].
  - simpl.
    destruct (mat_mul_shape k k c AtA X) as [P [EP HP]];
      try apply HAtA; auto.
    destruct (mat_sub_shape k c P AtB HP HAtB) as [grad [Eg Hg]].
    destruct (mat_mul_shape f k c A X) as [AX [EAX HAX]];
      try apply HA; auto.
    destruct (mat_sub_shape f c AX B HAX HB) as [obj [Eo Ho]].
    destruct (mat_sub_shape k c X X HX HX) as [D [ED HD]].
    rewrite EP; simpl. rewrite Eg; simpl. rewrite EAX; simpl.
    rewrite Eo; simpl.
    rewrite (FW_columns_keep k c A B grad AX X it Hg HX (proj1 HB))
      by apply HB.
    simpl. rewrite ED; simpl.
    destruct (IH (it + 1)%Z X (log ++ [mat_mean (mat_abs D)]) HX)
      as [log' [E L]].
    exists log'. split; [exact E |].
    rewrite L, length_app. simpl. lia.
Qed.

(** ** The initializer *)

Lemma index_max_from_bound (l : vec) (best_i i : nat) (best : Q) :
  (best_i < i)%nat -> (index_max_from best_i best i l < i + length l)%nat.
Proof.
  revert best_i i best.
  induction l as [| v l IH]; intros best_i i best H; simpl; [lia |].
  destruct (Qltb best v).
  - specialize (IH i (S i) v). lia.
  - specialize (IH best_i (S i) best). lia.
Qed.

Lemma arg_max_bound (v : vec) : (1 <= length v)%nat -> (arg_max v < length v)%nat.
Proof.
  destruct v as [| v0 l]; simpl; intro H; [lia |].
  pose proof (index_max_from_bound l 0 1 v0). lia.
Qed.

Lemma index_max_arg_max (v : vec) :
  (1 <= length v)%nat -> index_max v = Ok (arg_max v).
Proof.
  destruct v as [| v0 l]; simpl; intro H; [lia | reflexivity].
Qed.

Lemma vsum_repeat0 (k : nat) : vsum (repeat 0 k) == 0.
Proof.
  induction k as [| k IH]; simpl; [reflexivity | rewrite IH; ring].
Qed.

Lemma unit_vec_length (k i : nat) : length (unit_vec k i) = k.
Proof. unfold unit_vec. rewrite upd_length. apply repeat_length. Qed.

Lemma unit_vec_sum (k i : nat) : (i < k)%nat -> vsum (unit_vec k i) == 1.
Proof.
  intro H. unfold unit_vec.
  rewrite vsum_upd by (rewrite repeat_length; exact H).
  rewrite vsum_repeat0, nth_repeat. ring.
Qed.

Lemma upd_app_exact {A : Type} (f : A -> A) (p : list A) (a : A) (r : list A) :
  upd (length p) f (p ++ a :: r) = p ++ f a :: r.
Proof.
  induction p as [| b p IH]; simpl; [reflexivity | rewrite IH; reflexivity].
Qed.

Lemma firstn_snoc {A : Type} (l : list A) (j : nat) (v : A) :
  nth_error l j = Some v -> firstn (S j) l = firstn j l ++ [v].
Proof.
  revert j; induction l as [| a l IH]; intros [| j] H; simpl in *;
    try discriminate.
  - injection H as ->. reflexivity.
  - rewrite (IH j H). reflexivity.
Qed.

Lemma one_hot_init_ok (tmp : mat) :
  wf_mat tmp -> (1 <= n_rows tmp)%nat -> one_hot_init tmp = Ok (one_hot tmp).
Proof.
  intros Hwf Hr.
  set (r := n_rows tmp). set (c := n_cols tmp).
  set (U := fun v : vec => unit_vec r (arg_max v)).
  pose (P := fun (j : nat) (X : mat) =>
               n_rows X = r /\ n_cols X = c /\
               cols X = map U (firstn j (cols tmp))
                            ++ repeat (repeat 0 r) (c - j)).
  destruct (for_each_inv P c (init_col tmp) (zeros r c)) as [X [E HX]].
  - unfold P, zeros; simpl. rewrite Nat.sub_0_r. auto.
  - intros j X Hj [HXr [HXc HXcols]].
    destruct (col_ok r c tmp j (shape_of_wf tmp Hwf) Hj) as [v [Ev [Nv Lv]]].
    assert (Hv1 : (1 <= length v)%nat) by (unfold r in Lv; lia).
    pose proof (arg_max_bound v Hv1) as Hb.
    unfold init_col. rewrite Ev; simpl.
    rewrite (index_max_arg_max v Hv1); simpl.
    unfold set_elem. rewrite HXr, HXc.
    replace (arg_max v <? r)%nat with true
      by (symmetry; apply Nat.ltb_lt; lia).
    replace (j <? c)%nat with true by (symmetry; apply Nat.ltb_lt; lia).
    simpl. eexists. split; [reflexivity |].
    unfold P; cbn [n_rows n_cols cols]. repeat split.
    rewrite HXcols.
    replace (c - j)%nat with (S (c - S j)) by lia. cbn [repeat].
    assert (Hlen : length (map U (firstn j (cols tmp))) = j).
    { rewrite length_map, length_firstn. destruct Hwf as [Hl _].
      fold c in Hl. lia. }
    rewrite <- Hlen at 1. rewrite upd_app_exact.
    rewrite (firstn_snoc _ _ _ Nv), map_app. cbn [map].
    rewrite <- app_assoc. reflexivity.
  - unfold one_hot_init. fold r c. rewrite E. f_equal.
    destruct HX as [HXr [HXc HXcols]].
    rewrite Nat.sub_diag in HXcols. simpl in HXcols.
    rewrite app_nil_r in HXcols.
    rewrite firstn_all2 in HXcols by (destruct Hwf as [Hl _]; fold c in Hl; lia).
    destruct X as [xr xc xs]; simpl in *. subst. reflexivity.
Qed.

Lemma one_hot_unit_sums (tmp : mat) :
  wf_mat tmp -> (1 <= n_rows tmp)%nat ->
  unit_sums (n_rows tmp) (n_cols tmp) (one_hot tmp).
Proof.
  intros [Hl Hc] Hr. unfold unit_sums, shape, wf_mat, one_hot; simpl.
  repeat split.
  - rewrite length_map. exact Hl.
  - apply Forall_forall. intros u Hu.
    apply in_map_iff in Hu. destruct Hu as [v [<- _]].
    apply unit_vec_length.
  - apply Forall_forall. intros u Hu.
    apply in_map_iff in Hu. destruct Hu as [v [<- Hv]].
    rewrite Forall_forall in Hc. specialize (Hc v Hv).
    apply unit_vec_sum. rewrite <- Hc. apply arg_max_bound. lia.
Qed.

Lemma setup_ok (cor : mat -> mat -> result mat) (A B tmp : mat) :
  valid_input A B -> cor A B = Ok tmp -> cor_shape A B tmp ->
  exists AtA AtB,
    setup cor A B = Ok (one_hot tmp, AtA, AtB) /\
    shape (n_cols A) (n_cols A) AtA /\ shape (n_cols A) (n_cols B) AtB.
Proof.
  intros [HA [HB [Hrows [Hf [Hk Hn]]]]] Hcor [Hwf [Htr Htc]].
  pose proof (trans_shape _ _ A (shape_of_wf A HA)) as Ht.
  destruct (mat_mul_shape (n_cols A) (n_rows A) (n_cols A) (trans A) A)
    as [AtA [E1 H1]]; try apply Ht; [apply shape_of_wf; exact HA |].
  destruct (mat_mul_shape (n_cols A) (n_rows A) (n_cols B) (trans A) B)
    as [AtB [E2 H2]]; try apply Ht.
  { rewrite Hrows. apply shape_of_wf. exact HB. }
  exists AtA, AtB. split; [| split; assumption].
  unfold setup. rewrite Hcor; simpl.
  rewrite one_hot_init_ok by (auto; lia). simpl.
  rewrite E1; simpl. rewrite E2; simpl. reflexivity.
Qed.

Lemma index_max_from_spec (w l pre : vec) (bi : nat) (best : Q) :
  w = pre ++ l -> (bi < length pre)%nat -> nth bi w 0 = best ->
  (forall i, (i < length pre)%nat -> nth i w 0 <= best) ->
  (forall i, (i < bi)%nat -> nth i w 0 < best) ->
  first_maximum w (index_max_from bi best (length pre) l).
Proof.
  revert pre bi best.
  induction l as [| v l IH]; intros pre bi best Hw Hbi Hbest Hle Hlt; simpl.
  - rewrite app_nil_r in Hw. subst w. unfold first_maximum.
    rewrite Hbest. repeat split; auto.
  - assert (Hw' : w = (pre ++ [v]) ++ l)
      by (rewrite <- app_assoc; exact Hw).
    assert (Hv : nth (length pre) w 0 = v)
      by (rewrite Hw; apply nth_middle).
    assert (Hlen : length (pre ++ [v]) = S (length pre))
      by (rewrite length_app; simpl; lia).
    destruct (Qltb best v) eqn:E.
    + apply Qltb_true in E.
      rewrite <- Hlen. apply (IH (pre ++ [v]) (length pre) v Hw').
      * lia.
      * exact Hv.
      * intros i Hi. rewrite Hlen in Hi.
        destruct (Nat.eq_dec i (length pre)) as [-> | Hne].
        -- rewrite Hv. apply Qle_refl.
        -- apply Qlt_le_weak. eapply Qle_lt_trans; [apply Hle; lia | exact E].
      * intros i Hi. eapply Qle_lt_trans; [apply Hle; lia | exact E].
    + apply Qltb_false in E.
      rewrite <- Hlen. apply (IH (pre ++ [v]) bi best Hw').
      * lia.
      * exact Hbest.
      * intros i Hi. rewrite Hlen in Hi.
        destruct (Nat.eq_dec i (length pre)) as [-> | Hne].
        -- rewrite Hv. exact E.
        -- apply Hle. lia.
      * exact Hlt.
Qed.

Lemma arg_max_first_maximum (v : vec) :
  (1 <= length v)%nat -> first_maximum v (arg_max v).
Proof.
  destruct v as [| v0 l]; simpl; intro H; [lia |].
  apply (index_max_from_spec (v0 :: l) l [v0] 0 v0); simpl; auto; try lia.
  - intros i Hi. replace i with O by lia. apply Qle_refl.
Qed.

(** ** Feasibility of what is returned *)

Lemma post_projection_feasible (r c : nat) (X : mat) :
  unit_sums r c X ->
  shape r c (post_projection X) /\ Forall on_simplex (cols (post_projection X)).
Proof.
  intros [[[Hl Hc] [Hr Hn]] Hsum].
  unfold post_projection, normalise1, clamp, shape, wf_mat; simpl.
  repeat split; auto.
  - rewrite !length_map. exact Hl.
  - rewrite map_map. apply Forall_forall. intros u Hu.
    apply in_map_iff in Hu. destruct Hu as [v [<- Hv]].
    rewrite Forall_forall in Hc. specialize (Hc v Hv).
    unfold normalise_col. rewrite !length_map. exact Hc.
  - rewrite map_map. apply Forall_forall. intros u Hu.
    apply in_map_iff in Hu. destruct Hu as [v [<- Hv]].
    rewrite Forall_forall in Hsum.
    apply post_projection_col_simplex. apply Hsum. exact Hv.
Qed.

Lemma base_iterate_unit_sums (cor : mat -> mat -> result mat) (A B tmp : mat)
      (max_iter : Z) (min_diff : Q) :
  valid_input A B -> cor A B = Ok tmp -> cor_shape A B tmp ->
  exists X log,
    base_iterate cor A B max_iter min_diff = Ok (X, log) /\
    unit_sums (n_cols A) (n_cols B) X.
Proof.
  intros Hv Hcor Hsh.
  destruct (setup_ok cor A B tmp Hv Hcor Hsh) as [AtA [AtB [Es [H1 H2]]]].
  destruct Hv as [HA [HB [Hrows [Hf [Hk Hn]]]]].
  destruct Hsh as [Hwf [Htr Htc]].
  assert (H0 : unit_sums (n_cols A) (n_cols B) (one_hot tmp)).
  { rewrite <- Htr, <- Htc. apply one_hot_unit_sums; [exact Hwf | lia]. }
  unfold base_iterate. rewrite Es. simpl.
  apply (base_loop_inv (n_rows A) (n_cols A) (n_cols B)); auto.
  - apply shape_of_wf. exact HA.
  - rewrite Hrows. apply shape_of_wf. exact HB.
  - apply H0.
Qed.

Lemma FW_iterate_keeps (cor : mat -> mat -> result mat) (A B tmp : mat)
      (max_iter : Z) (min_diff : Q) :
  valid_input A B -> cor A B = Ok tmp -> cor_shape A B tmp ->
  exists log,
    FW_iterate cor A B max_iter min_diff = Ok (one_hot tmp, log) /\
    length log = Z.to_nat (effective_max_iter A max_iter).
Proof.
  intros Hv Hcor Hsh.
  destruct (setup_ok cor A B tmp Hv Hcor Hsh) as [AtA [AtB [Es [H1 H2]]]].
  destruct Hv as [HA [HB [Hrows [Hf [Hk Hn]]]]].
  destruct Hsh as [Hwf [Htr Htc]].
  assert (H0 : unit_sums (n_cols A) (n_cols B) (one_hot tmp)).
  { rewrite <- Htr, <- Htc. apply one_hot_unit_sums; [exact Hwf | lia]. }
  unfold FW_iterate. rewrite Es. simpl.
  destruct (FW_loop_keeps (n_rows A) (n_cols A) (n_cols B) A B AtA AtB
              (Z.to_nat (effective_max_iter A max_iter)))
    with (it := 0%Z) (X := one_hot tmp) (log := @nil Q) as [log [E L]]; auto.
  - apply shape_of_wf. exact HA.
  - rewrite Hrows. apply shape_of_wf. exact HB.
  - apply H0.
  - exists log. split; [exact E | exact L].
Qed.

(** C1, as the code has it.  The shape of [X] is that of the scores
    [cor(A, B)].  On every input with equal row counts and every dimension
    at least 1 for which [cor] returns a score matrix of [A.cols] rows and
    [B.cols] columns, for every [max_iter], in particular every
    [max_iter >= 0], and every [min_diff], both solvers return a matrix of
    [A.cols] rows and [B.cols] columns whose columns have all entries in
    [0,1] and sum to 1 (exactly, hence within 1e-9). *)
Theorem returned_matrix_on_simplex
        (cor : mat -> mat -> result mat) (A B tmp : mat)
        (max_iter : Z) (min_diff : Q) :
  valid_input A B -> cor A B = Ok tmp -> cor_shape A B tmp ->
  feasible_result A B (run_simplex_regression_FW_base cor A B max_iter min_diff) /\
  feasible_result A B (run_simplex_regression_FW cor A B max_iter min_diff).
Proof.
  intros Hv Hcor Hsh. split.
  - destruct (base_iterate_unit_sums cor A B tmp max_iter min_diff Hv Hcor Hsh)
      as [X [log [E HX]]].
    exists (post_projection X).
    unfold run_simplex_regression_FW_base. rewrite E. simpl.
    split; [reflexivity | apply post_projection_feasible; exact HX].
  - destruct (FW_iterate_keeps cor A B tmp max_iter min_diff Hv Hcor Hsh)
      as [log [E _]].
    exists (post_projection (one_hot tmp)).
    unfold run_simplex_regression_FW. rewrite E. simpl.
    split; [reflexivity |].
    apply post_projection_feasible.
    destruct Hv as [_ [_ [_ [_ [Hk _]]]]]. destruct Hsh as [Hwf [Htr Htc]].
    rewrite <- Htr, <- Htc. apply one_hot_unit_sums; [exact Hwf | lia].
Qed.

Lemma returned_matrix_on_simplex_witness :
  feasible_result I2 (column2 (1 # 4) (3 # 4))
    (run_simplex_regression_FW_base (cor_is second_best) I2
       (column2 (1 # 4) (3 # 4)) 2 tol) /\
  feasible_result I2 (column2 (1 # 4) (3 # 4))
    (run_simplex_regression_FW (cor_is second_best) I2
       (column2 (1 # 4) (3 # 4)) 2 tol).
Proof.
  apply (returned_matrix_on_simplex (cor_is second_best) I2
           (column2 (1 # 4) (3 # 4)) second_best 2 tol).
  - unfold valid_input, wf_mat; simpl. repeat constructor.
  - reflexivity.
  - unfold cor_shape, wf_mat; simpl. repeat constructor.
Defined.

(** C1 as stated fails on an input with a single row.  [A] = (1 2) and
    [B] = (1 3) have equal row counts and every dimension at least 1, and
    [cor(A, B)] is 1 by 1.  With [max_iter = 0] both solvers return the
    1 by 1 matrix (1), not a matrix of [A.cols] = 2 rows and [B.cols] = 2
    columns; with [max_iter = 1] the first product [AtA * X] does not
    conform and both solvers raise. *)
Lemma one_row_input_breaks_the_shape :
  valid_input A_1x2 B_1x2 /\
  shown_result (run_simplex_regression_FW_base (cor_is one_by_one)
                  A_1x2 B_1x2 0 tol) = Some [[1]] /\
  shown_result (run_simplex_regression_FW (cor_is one_by_one)
                  A_1x2 B_1x2 0 tol) = Some [[1]] /\
  ~ feasible_result A_1x2 B_1x2
      (run_simplex_regression_FW_base (cor_is one_by_one) A_1x2 B_1x2 0 tol) /\
  ~ feasible_result A_1x2 B_1x2
      (run_simplex_regression_FW (cor_is one_by_one) A_1x2 B_1x2 0 tol) /\
  run_simplex_regression_FW_base (cor_is one_by_one) A_1x2 B_1x2 1 tol
    = Err IncompatibleDims /\
  run_simplex_regression_FW (cor_is one_by_one) A_1x2 B_1x2 1 tol
    = Err IncompatibleDims.
Proof.
  split; [unfold valid_input, wf_mat; simpl; repeat constructor |].
  split; [vm_compute; reflexivity |].
  split; [vm_compute; reflexivity |].
  split.
  { intros [X [E [[_ [Hr _]] _]]]. vm_compute in E. injection E as <-.
    simpl in Hr. discriminate. }
  split.
  { intros [X [E [[_ [Hr _]] _]]]. vm_compute in E. injection E as <-.
    simpl in Hr. discriminate. }
  split; vm_compute; reflexivity.
Qed.

(** C10, as the code has it.  On every input with equal row counts and
    every dimension at least 1 for which [cor] returns a score matrix of
    [A.cols] rows and [B.cols] columns, the output of
    [run_simplex_regression_FW] is the same for all [max_iter] and
    [min_diff]: the loop ends on the initializer [X0] it started from, and
    the output is the clamped and column-normalised [X0].  [X0] has a
    single 1 per column: column [j] is the vertex [e_r] where [r] is the
    first row at which column [j] of the correlation scores is largest. *)
Theorem FW_output_is_projected_initializer
        (cor : mat -> mat -> result mat) (A B tmp : mat) :
  valid_input A B -> cor A B = Ok tmp -> cor_shape A B tmp ->
  exists X0,
    n_rows X0 = n_cols A /\ n_cols X0 = n_cols B /\
    length (cols X0) = n_cols B /\
    (forall j v, nth_error (cols tmp) j = Some v ->
       exists r, first_maximum v r /\
                 nth_error (cols X0) j = Some (unit_vec (n_cols A) r)) /\
    forall (max_iter : Z) (min_diff : Q),
      (exists log, FW_iterate cor A B max_iter min_diff = Ok (X0, log)) /\
      run_simplex_regression_FW cor A B max_iter min_diff
        = Ok (post_projection X0).
Proof.
  intros Hv Hcor Hsh. exists (one_hot tmp).
  pose proof Hsh as [[Hl Hc] [Htr Htc]].
  pose proof Hv as [_ [_ [_ [_ [Hk _]]]]].
  split; [exact Htr |]. split; [exact Htc |].
  split; [unfold one_hot; cbn [cols]; rewrite length_map; lia |].
  split.
  - intros j v Hj. exists (arg_max v). split.
    + apply arg_max_first_maximum.
      rewrite Forall_forall in Hc.
      rewrite (Hc v (nth_error_In _ _ Hj)). lia.
    + unfold one_hot; cbn [cols]. unfold vec in *.
      rewrite nth_error_map, Hj, Htr. reflexivity.
  - intros max_iter min_diff.
    destruct (FW_iterate_keeps cor A B tmp max_iter min_diff Hv Hcor Hsh)
      as [log [E _]].
    split; [exists log; exact E |].
    unfold run_simplex_regression_FW. rewrite E. reflexivity.
Qed.

Lemma FW_output_is_projected_initializer_witness :
  exists X0,
    n_rows X0 = n_cols I2 /\ n_cols X0 = n_cols (column2 (1 # 4) (3 # 4)) /\
    length (cols X0) = n_cols (column2 (1 # 4) (3 # 4)) /\
    (forall j v, nth_error (cols second_best) j = Some v ->
       exists r, first_maximum v r /\
                 nth_error (cols X0) j = Some (unit_vec (n_cols I2) r)) /\
    forall (max_iter : Z) (min_diff : Q),
      (exists log,
          FW_iterate (cor_is second_best) I2 (column2 (1 # 4) (3 # 4))
                     max_iter min_diff = Ok (X0, log)) /\
      run_simplex_regression_FW (cor_is second_best) I2
        (column2 (1 # 4) (3 # 4)) max_iter min_diff
        = Ok (post_projection X0).
Proof.
  apply (FW_output_is_projected_initializer (cor_is second_best) I2
           (column2 (1 # 4) (3 # 4)) second_best).
  - unfold valid_input, wf_mat; simpl. repeat constructor.
  - reflexivity.
  - unfold cor_shape, wf_mat; simpl. repeat constructor.
Defined.

(** C10 as stated fails on an input with a single row: for [A] = (1 2) and
    [B] = (1 3), where [cor(A, B)] is 1 by 1, the output of
    [run_simplex_regression_FW] is the matrix (1) with [max_iter = 0] and
    an error with [max_iter = 1]. *)
Lemma FW_output_depends_on_max_iter :
  valid_input A_1x2 B_1x2 /\
  run_simplex_regression_FW (cor_is one_by_one) A_1x2 B_1x2 0 tol
    = Ok (post_projection one_by_one) /\
  run_simplex_regression_FW (cor_is one_by_one) A_1x2 B_1x2 1 tol
    = Err IncompatibleDims /\
  run_simplex_regression_FW (cor_is one_by_one) A_1x2 B_1x2 0 tol
    <> run_simplex_regression_FW (cor_is one_by_one) A_1x2 B_1x2 1 tol.
Proof.
  split; [unfold valid_input, wf_mat; simpl; repeat constructor |].
  split; [vm_compute; reflexivity |].
  split; [vm_compute; reflexivity |].
  intro H. vm_compute in H. discriminate.
Qed.

(** ** The default of [max_iter] *)

(** C7, as the code has it.  Among the values [max_iter <= 0] only -1 stands
    for the default [k = A.cols]; with any other value no turn of the loop
    runs and the solvers return the projected initializer. *)
Theorem only_minus_one_selects_default
        (cor : mat -> mat -> result mat) (A B : mat)
        (max_iter : Z) (min_diff : Q) :
  (max_iter <= 0)%Z ->
  run_simplex_regression_FW_base cor A B max_iter min_diff
    = (if (max_iter =? -1)%Z
       then run_simplex_regression_FW_base cor A B (Z.of_nat (n_cols A)) min_diff
       else s <- setup cor A B ;; return_projected (fst (fst s), [])) /\
  run_simplex_regression_FW cor A B max_iter min_diff
    = (if (max_iter =? -1)%Z
       then run_simplex_regression_FW cor A B (Z.of_nat (n_cols A)) min_diff
       else s <- setup cor A B ;; return_projected (fst (fst s), [])).
Proof.
  intro Hle.
  unfold run_simplex_regression_FW_base, run_simplex_regression_FW,
    base_iterate, FW_iterate, effective_max_iter.
  destruct (max_iter =? -1)%Z eqn:E.
  - replace (Z.of_nat (n_cols A) =? -1)%Z with false
      by (symmetry; apply Z.eqb_neq; lia).
    split; reflexivity.
  - replace (Z.to_nat max_iter) with O by lia.
    destruct (setup cor A B) as [[[X AtA] AtB] | e]; split; reflexivity.
Qed.

Lemma only_minus_one_selects_default_witness :
  run_simplex_regression_FW_base (cor_is second_best) I2
      (column2 (1 # 4) (3 # 4)) 0 tol
    = (s <- setup (cor_is second_best) I2 (column2 (1 # 4) (3 # 4)) ;;
       return_projected (fst (fst s), [])) /\
  run_simplex_regression_FW (cor_is second_best) I2
      (column2 (1 # 4) (3 # 4)) 0 tol
    = (s <- setup (cor_is second_best) I2 (column2 (1 # 4) (3 # 4)) ;;
       return_projected (fst (fst s), [])).
Proof.
  apply (only_minus_one_selects_default (cor_is second_best) I2
           (column2 (1 # 4) (3 # 4)) 0 tol).
  discriminate.
Defined.

(** C7 as stated fails: with [A] the identity and [B] the column
    (1/4, 3/4), [max_iter = 0] returns the initializer (0, 1), while
    [max_iter = k = 2] runs two turns and returns (1/3, 2/3). *)
Lemma zero_max_iter_is_not_the_default :
  shown_result (run_simplex_regression_FW_base (cor_is second_best) I2
                  (column2 (1 # 4) (3 # 4)) 0 tol)
    = Some [[0; 1]] /\
  shown_result (run_simplex_regression_FW_base (cor_is second_best) I2
                  (column2 (1 # 4) (3 # 4)) (Z.of_nat (n_cols I2)) tol)
    = Some [[1 # 3; 2 # 3]] /\
  run_simplex_regression_FW_base (cor_is second_best) I2
      (column2 (1 # 4) (3 # 4)) 0 tol
    <> run_simplex_regression_FW_base (cor_is second_best) I2
         (column2 (1 # 4) (3 # 4)) (Z.of_nat (n_cols I2)) tol.
Proof.
  split; [vm_compute; reflexivity |].
  split; [vm_compute; reflexivity |].
  intro H.
  apply (f_equal shown_result) in H. vm_compute in H. discriminate.
Qed.

(** ** Inputs whose row counts differ *)

Lemma setup_rejects (cor : mat -> mat -> result mat) (A B : mat) :
  n_rows A <> n_rows B ->
  exists e, setup cor A B = Err e /\
            (forall tmp X0, cor A B = Ok tmp -> one_hot_init tmp = Ok X0 ->
                            e = IncompatibleDims).
Proof.
  intro Hne. unfold setup.
  destruct (cor A B) as [tmp | e]; simpl.
  2: { exists e. split; [reflexivity | intros; discriminate]. }
  destruct (one_hot_init tmp) as [X0 | e] eqn:Ei; simpl.
  2: { exists e. split; [reflexivity | intros ? ? H1 H2]. congruence. }
  unfold mat_mul. cbn [trans n_rows n_cols cols].
  rewrite Nat.eqb_refl.
  replace (n_rows A =? n_rows B)%nat with false
    by (symmetry; apply Nat.eqb_neq; exact Hne).
  exists IncompatibleDims. split; reflexivity.
Qed.

(** C8. When [A.rows] differs from [B.rows] both solvers raise before the
    iteration loop is entered: the statements ahead of the loop already end
    in an error, which is that of the conformance check of [trans(A) * B]
    unless [cor] or the initializer raised first, and the caller receives
    that error and no matrix, whatever [max_iter] and [min_diff] are. *)
Theorem mismatched_rows_rejected
        (cor : mat -> mat -> result mat) (A B : mat) :
  n_rows A <> n_rows B ->
  exists e,
    setup cor A B = Err e /\
    (forall tmp X0, cor A B = Ok tmp -> one_hot_init tmp = Ok X0 ->
                    e = IncompatibleDims) /\
    forall (max_iter : Z) (min_diff : Q),
      run_simplex_regression_FW_base cor A B max_iter min_diff = Err e /\
      run_simplex_regression_FW cor A B max_iter min_diff = Err e.
Proof.
  intro Hne.
  destruct (setup_rejects cor A B Hne) as [e [E He]].
  exists e. split; [exact E |]. split; [exact He |].
  intros max_iter min_diff.
  unfold run_simplex_regression_FW_base, run_simplex_regression_FW,
    base_iterate, FW_iterate.
  rewrite E. split; reflexivity.
Qed.

Lemma mismatched_rows_rejected_witness :
  exists e,
    setup (cor_is first_best) A_3x2 B_4x1 = Err e /\
    (forall tmp X0,
        cor_is first_best A_3x2 B_4x1 = Ok tmp ->
        one_hot_init tmp = Ok X0 -> e = IncompatibleDims) /\
    forall (max_iter : Z) (min_diff : Q),
      run_simplex_regression_FW_base (cor_is first_best)
        A_3x2 B_4x1 max_iter min_diff = Err e /\
      run_simplex_regression_FW (cor_is first_best)
        A_3x2 B_4x1 max_iter min_diff = Err e.
Proof.
  apply (mismatched_rows_rejected (cor_is first_best) A_3x2 B_4x1).
  simpl. discriminate.
Defined.

(** ** Columns without mass *)

Lemma clamped_zero_sum (c : vec) :
  vsum (map (clamp_val 0 1) c) == 0 ->
  Forall (fun q => q == 0) (map (clamp_val 0 1) c).
Proof.
  intro H.
  pose proof (range_nonneg _ (clamp_col_range c)) as Hnn.
  apply Forall_forall. intros q Hq.
  pose proof (entry_le_vsum _ q Hnn Hq) as Hle.
  rewrite Forall_forall in Hnn. specialize (Hnn q Hq). simpl in Hnn. lra.
Qed.

(** ** Where the code departs from the specification *)

(** C2.  [A] the identity, [B] the column (1/4, 3/4), one turn.  The first
    gradient is (-1/4, 1/4) at x = (0, 1); the visit of the column selects
    the forward direction d = (1, -1) with step length 1, so x + alpha*d is
    (1, 0).  [run_simplex_regression_FW] leaves the column at (0, 1) and
    prints a change of 0; [run_simplex_regression_FW_base] moves it to
    (1, 0). *)
Theorem FW_discards_the_step :
  let B := column2 (1 # 4) (3 # 4) in
  let X0 := mkMat 2 1 [[0; 1]] in
  shown_result (first_gradient (cor_is second_best) I2 B)
    = Some [[-1 # 4; 1 # 4]] /\
  FW_visit_col I2 B (mkMat 2 1 [[-1 # 4; 1 # 4]]) X0 0 X0 0
    = Ok (mkStep 0 1 true [1; -1] (Fin 1), [1; -1], Fin 1) /\
  shown_state (FW_iterate (cor_is second_best) I2 B 1 tol)
    = Some ([[0; 1]], [0]) /\
  shown_state (base_iterate (cor_is second_best) I2 B 1 tol)
    = Some ([[1; 0]], [2]).
Proof.
  repeat split; vm_compute; reflexivity.
Qed.

(** C3.  [A] the identity, [B] the column (1/2, -1/4).  The first gradient
    is g = (1/2, 1/4) at x = (1, 0).  Row 0 sets the running minimum, an
    [int], to (int) 0.5 = 0, and g(1) = 0.25 is not below 0: the scan ends
    with i1 = 0 although the minimum of g is in row 1.  With entries of
    1000 or more no row is ever selected: for [A] = diag(1, 100) and [B]
    the column (-6000, 50) the first gradient is g = (6000, 5000) at
    x = (0, 1), and the scan ends with i1 = i2 = 0, the row where g is
    largest and x is zero. *)
Theorem scan_misses_the_minimum :
  shown_result (first_gradient (cor_is first_best) I2 (column2 (1 # 2) (-1 # 4)))
    = Some [[1 # 2; 1 # 4]] /\
  select_vertices [1 # 2; 1 # 4] [1; 0] = mkScan 0 0 0 0 /\
  nth 1 [1 # 2; 1 # 4] 0 < nth 0 [1 # 2; 1 # 4] 0 /\
  shown_result (first_gradient (cor_is second_best) diag_1_100
                  (column2 (-6000) 50))
    = Some [[6000; 5000]] /\
  select_vertices [6000; 5000] [0; 1] = mkScan 0 0 1000 1000 /\
  nth 1 [6000; 5000] 0 < nth 0 [6000; 5000] 0 /\
  nth 0 [0; 1] 0 == 0.
Proof.
  repeat split; vm_compute; reflexivity.
Qed.

(** C4.  [A] = diag(1, 100), [B] the column (-6000, 50), one turn.  The
    first gradient is g = (6000, 5000) at x = (0, 1); the scan leaves
    i1 = i2 = 0 and the away direction d = x - e_0 = (-1, 1) is selected.
    The bound x(i2)/(1 - x(i2)) is 0, but the base solver applies the
    schedule value 2/(0+2) = 1 unclipped, and the drained coordinate goes
    from 0 to -1.  In [run_simplex_regression_FW] the schedule is an
    integer quotient: from the second turn on it is 0, not 2/(it+2). *)
Theorem away_step_is_not_clipped :
  let x := [0; 1] in
  let g := [6000; 5000] in
  shown_result (first_gradient (cor_is second_best) diag_1_100 (column2 (-6000) 50))
    = Some [g] /\
  base_direction g x = mkStep 0 0 false [-1; 1] (Fin 0) /\
  FW_direction g x = mkStep 0 0 false [-1; 1] (Fin 0) /\
  base_alpha 0 == 1 /\
  map Qred (base_new_col g x 0) = [-1; 2] /\
  shown_state (base_iterate (cor_is second_best) diag_1_100
                 (column2 (-6000) 50) 1 tol)
    = Some ([[-1; 2]], [2]) /\
  FW_alpha 1 (Fin 1) = Fin 0 /\
  base_alpha 1 == 2 # 3.
Proof.
  repeat split; vm_compute; reflexivity.
Qed.

(** C5.  [A] = -identity, [B] the column (0, -3/4), four turns of the base
    solver: the iterate at the end of the fourth turn is (-1/6, 7/6), which
    sums to 1 but is not a point of the simplex. *)
Theorem iterate_leaves_the_simplex :
  shown_state (base_iterate (cor_is second_best) minus_I2
                 (column2 0 (-3 # 4)) 4 tol)
    = Some ([[-1 # 6; 7 # 6]], [2; 4 # 3; 1 # 3; 2 # 3]) /\
  shown_state (base_iterate (cor_is second_best) minus_I2
                 (column2 0 (-3 # 4)) 3 tol)
    = Some ([[1 # 6; 5 # 6]], [2; 4 # 3; 1 # 3]) /\
  ~ on_simplex [-1 # 6; 7 # 6].
Proof.
  split; [vm_compute; reflexivity |].
  split; [vm_compute; reflexivity |].
  intros [H _]. inversion H as [| q l [H0 _] _]; subst.
  vm_compute in H0. apply H0. reflexivity.
Qed.

(** C6.  [A] the identity, [B] the column (1, 0), [max_iter = 3] and the
    default tolerance.  The initializer is already optimal and the change
    of the first turn is 0, below the tolerance.  The base solver stops
    after that turn; [run_simplex_regression_FW] prints a change of 0 three
    times: it runs all [max_iter] turns. *)
Theorem FW_never_stops_early :
  0 < tol /\
  shown_state (FW_iterate (cor_is first_best) I2 (column2 1 0) 3 tol)
    = Some ([[1; 0]], [0; 0; 0]) /\
  shown_state (base_iterate (cor_is first_best) I2 (column2 1 0) 3 tol)
    = Some ([[1; 0]], [0]).
Proof.
  repeat split; vm_compute; reflexivity.
Qed.

(** * Further properties of the code *)

(** ** The initializer *)

(** X1.  On a well-formed score matrix with at least one row the
    initializer never raises; it returns the matrix of the same shape
    whose column [j] is the vertex [e_r], where [r] is the first row at
    which column [j] of the scores is largest. *)
Theorem initializer_picks_first_maximum (tmp : mat) :
  wf_mat tmp -> (1 <= n_rows tmp)%nat ->
  exists X0,
    one_hot_init tmp = Ok X0 /\
    n_rows X0 = n_rows tmp /\ n_cols X0 = n_cols tmp /\
    forall j v, nth_error (cols tmp) j = Some v ->
      exists r, first_maximum v r /\
                nth_error (cols X0) j = Some (unit_vec (n_rows tmp) r).
Proof.
  intros Hwf Hr. exists (one_hot tmp).
  split; [apply one_hot_init_ok; assumption |].
  split; [reflexivity |]. split; [reflexivity |].
  intros j v Hj. exists (arg_max v). split.
  - apply arg_max_first_maximum.
    destruct Hwf as [_ Hc]. rewrite Forall_forall in Hc.
    rewrite (Hc v (nth_error_In _ _ Hj)). exact Hr.
  - unfold one_hot; cbn [cols]. unfold vec in *.
    rewrite nth_error_map, Hj. reflexivity.
Qed.

Lemma initializer_picks_first_maximum_witness :
  exists X0,
    one_hot_init (mkMat 2 2 [[1 # 2; 3 # 4]; [1; 1]]) = Ok X0 /\
    n_rows X0 = 2%nat /\ n_cols X0 = 2%nat /\
    forall j v,
      nth_error (cols (mkMat 2 2 [[1 # 2; 3 # 4]; [1; 1]])) j = Some v ->
      exists r, first_maximum v r /\
                nth_error (cols X0) j = Some (unit_vec 2 r).
Proof.
  apply (initializer_picks_first_maximum (mkMat 2 2 [[1 # 2; 3 # 4]; [1; 1]])).
  - unfold wf_mat; simpl. repeat constructor.
  - simpl. lia.
Defined.

(** ** The iteration loop of the base solver *)













(** ** The iteration loop of [run_simplex_regression_FW] *)








(** ** The direction selector *)

Lemma trunc_above (q : Q) : inject_Z (trunc q) - 1 < q.
Proof.
  unfold trunc. destruct (Qle_bool 0 q) eqn:E.
  - pose proof (Qfloor_le q). lra.
  - pose proof (Qceiling_lt q) as H.
    replace (Qceiling q - 1)%Z with (Qceiling q + -1)%Z in H by lia.
    rewrite inject_Z_plus in H.
    change (inject_Z (-1)) with (-1) in H. lra.
Qed.

Lemma trunc_below (q : Q) : q < inject_Z (trunc q) + 1.
Proof.
  unfold trunc. destruct (Qle_bool 0 q) eqn:E.
  - pose proof (Qlt_floor q) as H.
    rewrite inject_Z_plus in H. exact H.
  - pose proof (Qle_ceiling q). lra.
Qed.

Lemma trunc_le (q : Q) (z : Z) : q < inject_Z z -> (trunc q <= z)%Z.
Proof.
  intro H. unfold trunc. destruct (Qle_bool 0 q) eqn:E.
  - pose proof (Qfloor_le q) as Hf.
    assert (Hlt : inject_Z (Qfloor q) < inject_Z z) by lra.
    rewrite <- Zlt_Qlt in Hlt. lia.
  - rewrite <- (Qceiling_Z z). apply Qceiling_resp_le. lra.
Qed.

Lemma trunc_ge_min (q : Q) :
  inject_Z INT_MIN - 1 < q -> (INT_MIN <= trunc q)%Z.
Proof.
  intro H. unfold trunc. destruct (Qle_bool 0 q) eqn:E.
  - apply Qle_bool_iff in E.
    assert (H0 : (0 <= Qfloor q)%Z).
    { rewrite <- (Qfloor_Z 0). apply Qfloor_resp_le. exact E. }
    unfold INT_MIN. lia.
  - pose proof (Qle_ceiling q) as Hc.
    assert (Hlt : inject_Z (INT_MIN - 1) < inject_Z (Qceiling q)).
    { replace (INT_MIN - 1)%Z with (INT_MIN + -1)%Z by lia.
      rewrite inject_Z_plus. change (inject_Z (-1)) with (-1). lra. }
    rewrite <- Zlt_Qlt in Hlt. lia.
Qed.

Lemma double_to_int_min (q : Q) : (INT_MIN <= double_to_int q)%Z.
Proof.
  unfold double_to_int.
  destruct ((INT_MIN <=? trunc q)%Z && (trunc q <=? INT_MAX)%Z) eqn:E.
  - apply andb_true_iff in E. destruct E as [E _].
    apply Z.leb_le. exact E.
  - apply Z.le_refl.
Qed.

Lemma double_to_int_le (q : Q) (z : Z) :
  q < inject_Z z -> (INT_MIN <= z)%Z -> (double_to_int q <= z)%Z.
Proof.
  intros H Hz. unfold double_to_int.
  destruct ((INT_MIN <=? trunc q)%Z && (trunc q <=? INT_MAX)%Z);
    [apply trunc_le; exact H | exact Hz].
Qed.

Lemma double_to_int_defined (q : Q) :
  inject_Z INT_MIN - 1 < q -> q < 1000 -> double_to_int q = trunc q.
Proof.
  intros Hlo Hhi. unfold double_to_int.
  pose proof (trunc_ge_min q Hlo) as H1.
  assert (H2 : (trunc q <= 1000)%Z) by (apply trunc_le; exact Hhi).
  replace (INT_MIN <=? trunc q)%Z with true by (symmetry; apply Z.leb_le; exact H1).
  replace (trunc q <=? INT_MAX)%Z with true
    by (symmetry; apply Z.leb_le; unfold INT_MAX; lia).
  reflexivity.
Qed.

Lemma converts_any (g : vec) (j : nat) :
  converts g -> inject_Z INT_MIN - 1 < nth j g 0.
Proof.
  intro H. destruct (Nat.lt_ge_cases j (length g)) as [Hlt | Hge].
  - apply H. exact Hlt.
  - rewrite nth_overflow by exact Hge. reflexivity.
Qed.

Lemma min_step_reach (keep : nat -> bool) (g : vec) (m : nat) (s : nat * Z) :
  scan_reach keep g m s -> scan_reach keep g (S m) (min_step keep g s m).
Proof.
  intros [[Hlo Hhi] Hcases]. unfold min_step.
  destruct (keep m) eqn:Ek; simpl.
  2: { split; [split; assumption |].
       destruct Hcases as [[-> Hall] | [Hr [Hkr Hlt]]].
       - left. split; [reflexivity |]. intros j Hj Hkj.
         destruct (Nat.eq_dec j m) as [-> | Hne];
           [congruence | apply Hall; auto; lia].
       - right. repeat split; auto. }
  destruct (Qltb (nth m g 0) (inject_Z (snd s))) eqn:E.
  - apply Qltb_true in E.
    assert (HsQ : inject_Z (snd s) <= 1000).
    { change 1000 with (inject_Z 1000). rewrite <- Zle_Qle. exact Hhi. }
    pose proof (double_to_int_le _ _ E Hlo) as Hle.
    pose proof (double_to_int_min (nth m g 0)) as Hmin.
    split; [simpl; lia |].
    right. simpl. repeat split; auto. lra.
  - apply Qltb_false in E.
    split; [split; assumption |].
    destruct Hcases as [[-> Hall] | [Hr [Hkr Hlt]]].
    + left. split; [reflexivity |]. intros j Hj Hkj.
      destruct (Nat.eq_dec j m) as [-> | Hne];
        [exact E | apply Hall; auto; lia].
    + right. repeat split; auto.
Qed.

Lemma min_fold_reach (keep : nat -> bool) (g : vec) (n : nat) :
  scan_reach keep g n (fold_left (min_step keep g) (seq 0 n) (O, 1000%Z)).
Proof.
  induction n as [| n IH].
  - split; [simpl; unfold INT_MIN; lia |].
    left. split; [reflexivity |]. intros j Hj. lia.
  - rewrite seq_S, fold_left_app. simpl. apply min_step_reach. exact IH.
Qed.

Lemma min_step_inv (keep : nat -> bool) (g : vec) (m : nat) (s : nat * Z) :
  converts g ->
  scan_inv keep g m s -> scan_inv keep g (S m) (min_step keep g s m).
Proof.
  intros Hconv Hinv. unfold min_step.
  assert (Hbounds : (INT_MIN <= snd s)%Z /\ inject_Z (snd s) <= 1000).
  { destruct Hinv as [[-> _] | [_ [_ [Hv [Hlt _]]]]].
    - simpl. split; [unfold INT_MIN; lia | discriminate].
    - rewrite Hv. split; [apply double_to_int_min |].
      change 1000 with (inject_Z 1000). rewrite <- Zle_Qle.
      apply double_to_int_le; [exact Hlt | unfold INT_MIN; lia]. }
  destruct Hbounds as [Hlo Hhi].
  destruct (keep m) eqn:Ek; simpl.
  2: { (* the row is not admitted *)
    destruct Hinv as [[-> Hall] | [Hr [Hkr [Hv [Hlt [Hlow Hnear]]]]]].
    - left. split; [reflexivity |]. intros j Hj Hkj.
      destruct (Nat.eq_dec j m) as [-> | Hne]; [congruence | apply Hall; auto; lia].
    - right. repeat split; auto.
      + intros j Hj Hkj.
        destruct (Nat.eq_dec j m) as [-> | Hne]; [congruence | apply Hlow; auto; lia].
      + intros j Hj Hkj.
        destruct (Nat.eq_dec j m) as [-> | Hne]; [congruence | apply Hnear; auto; lia]. }
  destruct (Qltb (nth m g 0) (inject_Z (snd s))) eqn:E.
  - (* the row becomes the running minimum *)
    apply Qltb_true in E.
    assert (Hm1000 : nth m g 0 < 1000) by lra.
    pose proof (double_to_int_defined _ (converts_any g m Hconv) Hm1000) as Hdef.
    pose proof (trunc_above (nth m g 0)) as Habove.
    rewrite <- Hdef in Habove.
    pose proof (double_to_int_le _ _ E Hlo) as Hle.
    assert (HleQ : inject_Z (double_to_int (nth m g 0)) <= inject_Z (snd s))
      by (rewrite <- Zle_Qle; exact Hle).
    right. simpl.
    destruct Hinv as [[-> Hall] | [Hr [Hkr [Hv [Hlt [Hlow Hnear]]]]]].
    + simpl in *. change (inject_Z 1000) with 1000 in *.
      repeat split; auto.
      * intros j Hj Hkj.
        destruct (Nat.eq_dec j m) as [-> | Hne]; [exact Habove |].
        specialize (Hall j ltac:(lia) Hkj). lra.
      * intros j Hj Hkj.
        destruct (Nat.eq_dec j m) as [-> | Hne]; [lra |].
        specialize (Hall j ltac:(lia) Hkj). lra.
    + repeat split; auto.
      * intros j Hj Hkj.
        destruct (Nat.eq_dec j m) as [-> | Hne]; [exact Habove |].
        specialize (Hlow j ltac:(lia) Hkj). lra.
      * intros j Hj Hkj.
        destruct (Nat.eq_dec j m) as [-> | Hne]; [lra |].
        specialize (Hlow j ltac:(lia) Hkj). lra.
  - (* the row is not below the running minimum *)
    apply Qltb_false in E.
    destruct Hinv as [[-> Hall] | [Hr [Hkr [Hv [Hlt [Hlow Hnear]]]]]].
    + left. split; [reflexivity |]. intros j Hj Hkj.
      destruct (Nat.eq_dec j m) as [-> | Hne]; [exact E | apply Hall; auto; lia].
    + right. repeat split; auto.
      * intros j Hj Hkj.
        destruct (Nat.eq_dec j m) as [-> | Hne]; [lra | apply Hlow; auto; lia].
      * intros j Hj Hkj.
        destruct (Nat.eq_dec j m) as [-> | Hne]; [| apply Hnear; auto; lia].
        pose proof (double_to_int_defined _ (converts_any g (fst s) Hconv) Hlt)
          as Hdef.
        pose proof (trunc_below (nth (fst s) g 0)) as Hb.
        rewrite <- Hdef, <- Hv in Hb. lra.
Qed.

Lemma min_fold_inv (keep : nat -> bool) (g : vec) (n : nat) :
  converts g ->
  scan_inv keep g n (fold_left (min_step keep g) (seq 0 n) (O, 1000%Z)).
Proof.
  intro Hconv. induction n as [| n IH].
  - left. split; [reflexivity |]. intros j Hj. lia.
  - rewrite seq_S, fold_left_app. simpl. apply min_step_inv; assumption.
Qed.

Lemma scan_step_i1 (g x : vec) (s : scan) (i : nat) :
  (i1 (scan_step g x s i), i1_val (scan_step g x s i))
  = min_step (fun _ => true) g (i1 s, i1_val s) i.
Proof.
  unfold scan_step, min_step. simpl.
  destruct (Qltb (nth i g 0) (inject_Z (i1_val s)));
    destruct (Qltb 0 (nth i x 0)); simpl;
    try match goal with
        | |- context [if ?b then _ else _] => destruct b
        end; reflexivity.
Qed.

Lemma scan_step_i2 (g x : vec) (s : scan) (i : nat) :
  (i2 (scan_step g x s i), i2_val (scan_step g x s i))
  = min_step (in_support x) g (i2 s, i2_val s) i.
Proof.
  unfold scan_step, min_step, in_support. simpl.
  destruct (Qltb (nth i g 0) (inject_Z (i1_val s)));
    destruct (Qltb 0 (nth i x 0)); simpl;
    try match goal with
        | |- context [if ?b then _ else _] => destruct b
        end; reflexivity.
Qed.

Lemma scan_fold_i1 (g x : vec) (l : list nat) (s : scan) :
  (i1 (fold_left (scan_step g x) l s), i1_val (fold_left (scan_step g x) l s))
  = fold_left (min_step (fun _ => true) g) l (i1 s, i1_val s).
Proof.
  revert s. induction l as [| i l IH]; intro s; simpl; [reflexivity |].
  rewrite IH, scan_step_i1. reflexivity.
Qed.

Lemma scan_fold_i2 (g x : vec) (l : list nat) (s : scan) :
  (i2 (fold_left (scan_step g x) l s), i2_val (fold_left (scan_step g x) l s))
  = fold_left (min_step (in_support x) g) l (i2 s, i2_val s).
Proof.
  revert s. induction l as [| i l IH]; intro s; simpl; [reflexivity |].
  rewrite IH, scan_step_i2. reflexivity.
Qed.

Lemma select_vertices_i1_inv (g x : vec) :
  converts g ->
  scan_inv (fun _ => true) g (length g)
           (i1 (select_vertices g x), i1_val (select_vertices g x)).
Proof.
  intro H. unfold select_vertices. rewrite scan_fold_i1.
  apply min_fold_inv. exact H.
Qed.

Lemma select_vertices_i2_inv (g x : vec) :
  converts g ->
  scan_inv (in_support x) g (length g)
           (i2 (select_vertices g x), i2_val (select_vertices g x)).
Proof.
  intro H. unfold select_vertices. rewrite scan_fold_i2.
  apply min_fold_inv. exact H.
Qed.

Lemma select_vertices_i1_reach (g x : vec) :
  scan_reach (fun _ => true) g (length g)
             (i1 (select_vertices g x), i1_val (select_vertices g x)).
Proof.
  unfold select_vertices. rewrite scan_fold_i1. apply min_fold_reach.
Qed.

Lemma select_vertices_i2_reach (g x : vec) :
  scan_reach (in_support x) g (length g)
             (i2 (select_vertices g x), i2_val (select_vertices g x)).
Proof.
  unfold select_vertices. rewrite scan_fold_i2. apply min_fold_reach.
Qed.

(** X6.  Whenever no entry of the gradient column is so negative that its
    conversion to [int] is undefined (every entry is above [INT_MIN - 1])
    and some entry is below 1000, the row [i1] the scan selects is a row
    of the column, its entry is below 1000 and it exceeds no entry of the
    column by 1 or more: [i1] is a minimum up to the truncation of the
    running minimum to [int]. *)
Theorem i1_within_one_of_minimum (g x : vec) (j0 : nat) :
  (forall j, (j < length g)%nat -> inject_Z INT_MIN - 1 < nth j g 0) ->
  (j0 < length g)%nat -> nth j0 g 0 < 1000 ->
  let r := i1 (select_vertices g x) in
  (r < length g)%nat /\ nth r g 0 < 1000 /\
  forall j, (j < length g)%nat -> nth r g 0 < nth j g 0 + 1.
Proof.
  intros Hconv Hj0 Hlt r.
  destruct (select_vertices_i1_inv g x Hconv)
    as [[_ Hall] | [Hr [_ [_ [Hr1000 [_ Hnear]]]]]].
  - specialize (Hall j0 Hj0 eq_refl). lra.
  - simpl in *. fold r in Hr, Hr1000, Hnear.
    repeat split; auto.
Qed.

Lemma i1_within_one_of_minimum_witness :
  let r := i1 (select_vertices [1 # 2; 1 # 4] [1; 0]) in
  (r < length [1 # 2; 1 # 4])%nat /\ nth r [1 # 2; 1 # 4] 0 < 1000 /\
  forall j, (j < length [1 # 2; 1 # 4])%nat ->
            nth r [1 # 2; 1 # 4] 0 < nth j [1 # 2; 1 # 4] 0 + 1.
Proof.
  apply (i1_within_one_of_minimum [1 # 2; 1 # 4] [1; 0] 0).
  - intros j Hj.
    destruct j as [| [| j]]; simpl in *; [reflexivity | reflexivity | lia].
  - simpl. lia.
  - reflexivity.
Defined.

(** X7.  Whenever no entry of the gradient column is so negative that its
    conversion to [int] is undefined (every entry is above [INT_MIN - 1])
    and some row has a positive entry of [x] and a gradient entry below
    1000, the row [i2] the scan selects is in the support of [x] (its
    entry of [x] is positive), and its gradient entry exceeds that of no
    row of the support by 1 or more. *)
Theorem i2_in_support_within_one (g x : vec) (j0 : nat) :
  (forall j, (j < length g)%nat -> inject_Z INT_MIN - 1 < nth j g 0) ->
  (j0 < length g)%nat -> 0 < nth j0 x 0 -> nth j0 g 0 < 1000 ->
  let r := i2 (select_vertices g x) in
  (r < length g)%nat /\ 0 < nth r x 0 /\ nth r g 0 < 1000 /\
  forall j, (j < length g)%nat -> 0 < nth j x 0 ->
            nth r g 0 < nth j g 0 + 1.
Proof.
  intros Hconv Hj0 Hx Hlt r.
  destruct (select_vertices_i2_inv g x Hconv)
    as [[_ Hall] | [Hr [Hk [_ [Hr1000 [_ Hnear]]]]]].
  - assert (Hk0 : in_support x j0 = true) by (apply Qltb_true; exact Hx).
    specialize (Hall j0 Hj0 Hk0). lra.
  - simpl in *. fold r in Hr, Hk, Hr1000, Hnear.
    split; [exact Hr |]. split; [apply Qltb_true; exact Hk |].
    split; [exact Hr1000 |].
    intros j Hj Hxj. apply Hnear; [exact Hj | apply Qltb_true; exact Hxj].
Qed.

Lemma i2_in_support_within_one_witness :
  let r := i2 (select_vertices [1 # 6; 1 # 12] [1 # 6; 5 # 6]) in
  (r < length [1 # 6; 1 # 12])%nat /\ 0 < nth r [1 # 6; 5 # 6] 0 /\
  nth r [1 # 6; 1 # 12] 0 < 1000 /\
  forall j, (j < length [1 # 6; 1 # 12])%nat -> 0 < nth j [1 # 6; 5 # 6] 0 ->
            nth r [1 # 6; 1 # 12] 0 < nth j [1 # 6; 1 # 12] 0 + 1.
Proof.
  apply (i2_in_support_within_one [1 # 6; 1 # 12] [1 # 6; 5 # 6] 0).
  - intros j Hj.
    destruct j as [| [| j]]; simpl in *; [reflexivity | reflexivity | lia].
  - simpl. lia.
  - reflexivity.
  - reflexivity.
Defined.

(** X8.  When no entry of the gradient column is below 1000 the scan
    selects nothing: [i1] and [i2] keep their initial value, row 0. *)
Theorem scan_selects_nothing_from_1000 (g x : vec) :
  (forall j, (j < length g)%nat -> 1000 <= nth j g 0) ->
  select_vertices g x = mkScan 0 0 1000 1000.
Proof.
  intro Hall.
  assert (H1 : (i1 (select_vertices g x), i1_val (select_vertices g x))
               = (O, 1000%Z)).
  { destruct (select_vertices_i1_reach g x)
      as [_ [[E _] | [Hr [_ Hlt]]]]; [exact E |].
    simpl in *. specialize (Hall _ Hr). lra. }
  assert (H2 : (i2 (select_vertices g x), i2_val (select_vertices g x))
               = (O, 1000%Z)).
  { destruct (select_vertices_i2_reach g x)
      as [_ [[E _] | [Hr [_ Hlt]]]]; [exact E |].
    simpl in *. specialize (Hall _ Hr). lra. }
  destruct (select_vertices g x) as [a b c e]; simpl in *.
  injection H1 as -> ->. injection H2 as -> ->. reflexivity.
Qed.

Lemma scan_selects_nothing_from_1000_witness :
  select_vertices [6000; 5000] [0; 1] = mkScan 0 0 1000 1000.
Proof.
  apply (scan_selects_nothing_from_1000 [6000; 5000] [0; 1]).
  intros j Hj.
  destruct j as [| [| j]]; simpl in *; [discriminate | discriminate | lia].
Defined.

(** ** Forward steps of the base solver *)

Lemma base_alpha_range (it : Z) :
  (0 <= it)%Z -> 0 <= base_alpha it /\ base_alpha it <= 1.
Proof.
  intro Hit. unfold base_alpha.
  assert (Hz : 2 <= inject_Z (it + 2)).
  { change 2 with (inject_Z 2). rewrite <- Zle_Qle. lia. }
  split.
  - apply Qle_shift_div_l; lra.
  - apply Qle_shift_div_r; lra.
Qed.

Lemma forward_entries (x : vec) (i : nat) (alpha : Q) :
  0 <= alpha -> alpha <= 1 ->
  Forall (fun q => 0 <= q /\ q <= 1) x ->
  Forall (fun q => 0 <= q /\ q <= 1)
         (vadd x (vscale alpha (upd i (fun v => 1 + v) (vneg x)))).
Proof.
  intros H0 H1 Hx. revert i.
  induction Hx as [| q x [Hq0 Hq1] Hx IH]; intro i; [destruct i; constructor |].
  destruct i as [| i]; simpl.
  - constructor; [split; nra |].
    specialize (IH (length x)).
    assert (E : upd (length x) (fun v => 1 + v) (vneg x) = vneg x).
    { clear. induction x as [| b x IHx]; simpl; [reflexivity |].
      unfold vneg in *. rewrite IHx. reflexivity. }
    rewrite E in IH. exact IH.
  - constructor; [split; nra |]. apply IH.
Qed.

(** X9.  A forward step of the base solver keeps a point of the simplex on
    the simplex: when the column [x] is on the simplex and the forward
    direction is selected at a turn [it >= 0], the new column
    [x + alpha*d] has all its entries in [0,1] and sums to 1. *)
Theorem forward_step_stays_on_simplex (g x : vec) (it : Z) :
  length g = length x -> on_simplex x -> (0 <= it)%Z ->
  forward (base_direction g x) = true ->
  on_simplex (base_new_col g x it).
Proof.
  intros Hlen [Hr Hsum] Hit Hfw.
  assert (Hk : (1 <= length x)%nat).
  { destruct x; simpl in *; [| lia]. vm_compute in Hsum. discriminate. }
  split; [| apply base_new_col_sum; assumption].
  destruct (base_alpha_range it Hit) as [Ha0 Ha1].
  unfold base_new_col. unfold base_direction in *.
  destruct (Qltb _ _); simpl in *; [| discriminate].
  apply forward_entries; assumption.
Qed.

Lemma forward_step_stays_on_simplex_witness :
  on_simplex (base_new_col [-1 # 4; 1 # 4] [0; 1] 0).
Proof.
  apply (forward_step_stays_on_simplex [-1 # 4; 1 # 4] [0; 1] 0).
  - reflexivity.
  - split; [repeat constructor; discriminate | reflexivity].
  - lia.
  - reflexivity.
Defined.

(** ** The post-projection *)

Lemma normalise_massless (c : vec) :
  vsum (map (clamp_val 0 1) c) == 0 ->
  Forall (fun q => q == 0) (normalise_col (map (clamp_val 0 1) c)).
Proof.
  intro Hz.
  pose proof (clamped_zero_sum c Hz) as Hall.
  assert (Hn : norm1 (map (clamp_val 0 1) c) == 0).
  { unfold norm1. rewrite vsum_vabs_nonneg; [exact Hz |].
    apply range_nonneg, clamp_col_range. }
  unfold normalise_col. rewrite (Qeq_eq_bool _ _ Hn).
  apply Forall_forall. intros y Hy.
  apply in_map_iff in Hy. destruct Hy as [q [<- Hq]].
  rewrite Forall_forall in Hall. rewrite (Hall q Hq).
  unfold Qdiv. ring.
Qed.

Lemma projected_col_cases (c : vec) :
  on_simplex (normalise_col (map (clamp_val 0 1) c)) \/
  Forall (fun q => q == 0) (normalise_col (map (clamp_val 0 1) c)).
Proof.
  pose proof (vsum_nonneg _ (range_nonneg _ (clamp_col_range c))) as Hnn.
  destruct (Qlt_le_dec 0 (vsum (map (clamp_val 0 1) c))) as [Hpos | Hle].
  - left. apply normalise_col_simplex; [apply clamp_col_range | exact Hpos].
  - right. apply normalise_massless. lra.
Qed.

(** X10.  Whatever state the loop leaves, the post-projection returns a
    matrix of the same shape in which every column either is a point of
    the simplex or has all its entries zero. *)
Theorem post_projection_simplex_or_zero (X : mat) :
  n_rows (post_projection X) = n_rows X /\
  n_cols (post_projection X) = n_cols X /\
  length (cols (post_projection X)) = length (cols X) /\
  Forall (fun c => on_simplex c \/ Forall (fun q => q == 0) c)
         (cols (post_projection X)).
Proof.
  unfold post_projection, normalise1, clamp; cbn [n_rows n_cols cols].
  repeat split.
  - rewrite !length_map. reflexivity.
  - rewrite map_map. apply Forall_forall. intros u Hu.
    apply in_map_iff in Hu. destruct Hu as [c [<- _]].
    apply projected_col_cases.
Qed.

Lemma clamp_in_range (c : vec) :
  Forall (fun q => 0 <= q /\ q <= 1) c -> map (clamp_val 0 1) c = c.
Proof.
  induction 1 as [| q c [H0 H1] Hc IH]; simpl; [reflexivity |].
  rewrite IH. f_equal. unfold clamp_val.
  replace (Qltb q 0) with false by (symmetry; apply Qltb_false; exact H0).
  replace (Qltb 1 q) with false by (symmetry; apply Qltb_false; exact H1).
  reflexivity.
Qed.

Lemma map_equiv (f : Q -> Q) (c : vec) :
  (forall q, f q == q) -> col_equiv (map f c) c.
Proof.
  intro Hf. induction c as [| q c IH]; simpl; constructor; auto.
Qed.

Lemma projection_fixes_simplex (c : vec) :
  on_simplex c -> col_equiv (normalise_col (map (clamp_val 0 1) c)) c.
Proof.
  intros [Hr Hsum]. rewrite (clamp_in_range c Hr).
  assert (Hn : norm1 c == 1).
  { unfold norm1. rewrite vsum_vabs_nonneg; [exact Hsum |].
    apply range_nonneg. exact Hr. }
  unfold normalise_col.
  destruct (Qeq_bool (norm1 c) 0) eqn:E.
  { apply Qeq_bool_eq in E. lra. }
  apply map_equiv. intro q. rewrite Hn. unfold Qdiv. field.
Qed.

Lemma zeros_in_range (c : vec) :
  Forall (fun q => q == 0) c -> Forall (fun q => 0 <= q /\ q <= 1) c.
Proof.
  intro H. eapply Forall_impl; [| exact H]. simpl. intros q Hq. lra.
Qed.

Lemma vsum_zeros (c : vec) : Forall (fun q => q == 0) c -> vsum c == 0.
Proof.
  induction 1 as [| q c Hq Hc IH]; simpl; [reflexivity |].
  rewrite IH, Hq. ring.
Qed.

Lemma projection_fixes_zeros (c : vec) :
  Forall (fun q => q == 0) c ->
  col_equiv (normalise_col (map (clamp_val 0 1) c)) c.
Proof.
  intro Hz. pose proof (zeros_in_range c Hz) as Hr.
  rewrite (clamp_in_range c Hr).
  assert (Hn : norm1 c == 0).
  { unfold norm1. rewrite vsum_vabs_nonneg; [apply vsum_zeros; exact Hz |].
    apply range_nonneg. exact Hr. }
  unfold normalise_col. rewrite (Qeq_eq_bool _ _ Hn).
  apply map_equiv. intro q. unfold Qdiv. field.
Qed.

Lemma Forall2_map_self {A : Type} (R : A -> A -> Prop) (P : A -> Prop)
      (f : A -> A) (l : list A) :
  (forall a, P a -> R (f a) a) -> Forall P l -> Forall2 R (map f l) l.
Proof.
  intros Hf. induction 1 as [| a l Ha Hl IH]; simpl; constructor; auto.
Qed.

(** X11.  The post-projection is idempotent: applied to its own result it
    changes no entry (as a rational), whatever the matrix it started
    from. *)
Theorem post_projection_idempotent (X : mat) :
  mat_equiv (post_projection (post_projection X)) (post_projection X).
Proof.
  assert (Hcases : Forall (fun c => on_simplex c \/ Forall (fun q => q == 0) c)
                          (cols (post_projection X))).
  { unfold post_projection, normalise1, clamp; cbn [cols].
    rewrite map_map. apply Forall_forall. intros u Hu.
    apply in_map_iff in Hu. destruct Hu as [c [<- _]].
    apply projected_col_cases. }
  set (Y := post_projection X) in *.
  unfold mat_equiv. split; [reflexivity |]. split; [reflexivity |].
  unfold post_projection at 1. unfold normalise1, clamp; cbn [cols].
  rewrite map_map.
  eapply Forall2_map_self; [| exact Hcases].
  simpl. intros c [Hs | Hz].
  - apply projection_fixes_simplex. exact Hs.
  - apply projection_fixes_zeros. exact Hz.
Qed.




(** ** [run_simplex_regression_FW_test1] *)

Lemma nth_error_upd {A : Type} (i j : nat) (f : A -> A) (l : list A) :
  nth_error (upd i f l) j =
  if Nat.eqb i j then option_map f (nth_error l j) else nth_error l j.
Proof.
  revert i j; induction l as [| a l IH]; intros [| i] [| j]; simpl; auto.
  destruct (Nat.eqb i j); reflexivity.
Qed.
















Lemma test1_init_ok (A B : mat) :
  (1 <= n_cols A)%nat ->
  test1_init A B = Ok (all_on_first (n_cols A) (n_cols B)).
Proof.
  intro Hk. unfold test1_init, zeros, all_on_first; cbn [n_rows n_cols cols].
  replace (0 <? n_cols A)%nat with true by (symmetry; apply Nat.ltb_lt; lia).
  rewrite map_repeat. reflexivity.
Qed.




(** X14.  When the header allows no turn ([max_iter <= 0] other than -1)
    and [A] has a column, [run_simplex_regression_FW_test1] returns its
    starting point, every column with all its mass on row 0, without
    looking at [B] beyond its number of columns: no check of the rows of
    [B] against those of [A] is reached. *)
Theorem test1_without_turns (A B : mat) (max_iter : Z) (min_diff : Q) :
  (1 <= n_cols A)%nat -> (max_iter <= 0)%Z -> max_iter <> (-1)%Z ->
  run_simplex_regression_FW_test1 A B max_iter min_diff
    = Ok (all_on_first (n_cols A) (n_cols B)).
Proof.
  intros Hk Hle Hne. unfold run_simplex_regression_FW_test1.
  rewrite test1_init_ok by exact Hk. simpl.
  unfold mat_mul at 1. cbn [trans n_rows n_cols cols].
  rewrite Nat.eqb_refl. simpl.
  unfold effective_max_iter.
  replace (max_iter =? -1)%Z with false by (symmetry; apply Z.eqb_neq; exact Hne).
  replace (Z.to_nat max_iter) with O by lia. reflexivity.
Qed.

Lemma test1_without_turns_witness :
  run_simplex_regression_FW_test1 A_3x2 B_4x1 0 tol
    = Ok (all_on_first (n_cols A_3x2) (n_cols B_4x1)).
Proof.
  apply (test1_without_turns A_3x2 B_4x1 0 tol).
  - simpl. lia.
  - lia.
  - discriminate.
Defined.

(** X15.  When [A.rows] differs from [B.rows], [A] has a column and the
    header allows at least one turn, [run_simplex_regression_FW_test1]
    raises in its first turn, on the product [trans(A) * B], and returns no
    matrix. *)
Theorem test1_rejects_in_first_turn (A B : mat) (max_iter : Z) (min_diff : Q) :
  n_rows A <> n_rows B -> (1 <= n_cols A)%nat ->
  (1 <= turns A max_iter)%nat ->
  run_simplex_regression_FW_test1 A B max_iter min_diff = Err IncompatibleDims.
Proof.
  intros Hne Hk Ht. unfold run_simplex_regression_FW_test1.
  rewrite test1_init_ok by exact Hk. simpl.
  unfold mat_mul at 1. cbn [trans n_rows n_cols cols].
  rewrite Nat.eqb_refl. simpl.
  unfold turns in Ht.
  destruct (Z.to_nat (effective_max_iter A max_iter)) as [| m]; [lia |].
  simpl. unfold mat_mul at 1. cbn [all_on_first n_rows n_cols cols].
  rewrite Nat.eqb_refl. simpl.
  unfold mat_mul at 1. cbn [trans n_rows n_cols cols].
  replace (n_rows A =? n_rows B)%nat with false
    by (symmetry; apply Nat.eqb_neq; exact Hne).
  reflexivity.
Qed.

Lemma test1_rejects_in_first_turn_witness :
  run_simplex_regression_FW_test1 A_3x2 B_4x1 (-1) tol = Err IncompatibleDims.
Proof.
  apply (test1_rejects_in_first_turn A_3x2 B_4x1 (-1) tol).
  - simpl. discriminate.
  - simpl. lia.
  - vm_compute. lia.
Defined.

Lemma test1_clip_is_min (alpha x : Q) :
  xmin (Fin alpha) (fdiv x (1 - x)) = Fin (test1_clip alpha (fdiv x (1 - x))).
Proof.
  unfold test1_clip, fdiv.
  destruct (Qeq_bool (1 - x) 0) eqn:E.
  - apply Qeq_bool_eq in E.
    assert (Hx : x == 1) by lra.
    destruct (Qeq_bool x 0) eqn:E0.
    { apply Qeq_bool_eq in E0. lra. }
    replace (Qltb 0 x) with true by (symmetry; apply Qltb_true; lra).
    reflexivity.
  - unfold xmin, xltb. destruct (Qltb (x / (1 - x)) alpha); reflexivity.
Qed.

(** ** The first turn of the base solver *)

Lemma nth_upd_other {A : Type} (i p : nat) (f : A -> A) (l : list A) (d : A) :
  i <> p -> nth i (upd p f l) d = nth i l d.
Proof.
  revert i p. induction l as [| a l IH]; intros [| i] [| p] H; simpl; auto;
    try contradiction.
Qed.

Lemma upd_upd {A : Type} (p : nat) (f h : A -> A) (l : list A) :
  upd p f (upd p h l) = upd p (fun a => f (h a)) l.
Proof.
  revert p. induction l as [| a l IH]; intros [| p]; simpl; auto.
  rewrite IH. reflexivity.
Qed.

Lemma positive_entry_of_vertex (k p i : nat) :
  0 < nth i (unit_vec k p) 0 -> i = p.
Proof.
  intro H. destruct (Nat.eq_dec i p) as [E | E]; [exact E | exfalso].
  unfold unit_vec in H. rewrite nth_upd_other in H by exact E.
  rewrite nth_repeat in H. apply (Qlt_irrefl 0 H).
Qed.

Lemma null_step (alpha : Q) (x dir : vec) :
  length dir = length x -> Forall (fun q => q == 0) dir ->
  col_equiv (vadd x (vscale alpha dir)) x.
Proof.
  revert dir. induction x as [| a x IH]; intros [| b dir] Hl Hz;
    simpl in *; try discriminate; [constructor |].
  inversion Hz as [| ? ? Hb Hz']; subst.
  constructor; [rewrite Hb; ring | apply IH; [lia | exact Hz']].
Qed.

Lemma full_step_to_zero (alpha : Q) (x : vec) :
  alpha == 1 ->
  col_equiv (vadd x (vscale alpha (vneg x))) (repeat 0 (length x)).
Proof.
  intro Ha. induction x as [| a x IH]; simpl; constructor.
  - rewrite Ha. ring.
  - exact IH.
Qed.

Lemma full_forward_step (alpha : Q) (x : vec) (i : nat) :
  alpha == 1 -> (i < length x)%nat ->
  col_equiv (vadd x (vscale alpha (upd i (fun v => 1 + v) (vneg x))))
            (unit_vec (length x) i).
Proof.
  intro Ha. revert i.
  induction x as [| a x IH]; intros i Hi; simpl in Hi; [lia |].
  destruct i as [| i]; simpl.
  - constructor; [rewrite Ha; ring | apply full_step_to_zero; exact Ha].
  - constructor; [rewrite Ha; ring | apply IH; lia].
Qed.

Lemma away_from_vertex_is_null (k p : nat) :
  Forall (fun q => q == 0) (upd p (fun v => v - 1) (unit_vec k p)).
Proof.
  unfold unit_vec. rewrite upd_upd. apply Forall_upd.
  - apply Forall_forall. intros q Hq. apply repeat_spec in Hq. subst q.
    reflexivity.
  - intros. reflexivity.
Qed.

(** X16.  The first turn of the base solver takes a vertex to a vertex:
    when the column is the vertex [e_p] and the gradient entry of row [p]
    is below 1000, the column written at turn 0 is, entry by entry, the
    vertex [e_i1] when the forward direction is selected, and [e_p] itself
    when the away direction is selected (then [i2 = p] and the away
    direction is the null vector); [i1] is a row of the column. *)
Theorem first_turn_vertex_to_vertex (g : vec) (k p : nat) :
  length g = k -> (p < k)%nat -> nth p g 0 < 1000 ->
  let st := base_direction g (unit_vec k p) in
  (at_i1 st < k)%nat /\
  (forward st = false -> at_i2 st = p /\ Forall (fun q => q == 0) (d st)) /\
  col_equiv (base_new_col g (unit_vec k p) 0)
            (unit_vec k (if forward st then at_i1 st else p)).
Proof.
  intros Hg Hp Hlt.
  assert (Ha : base_alpha 0 == 1) by reflexivity.
  pose proof (unit_vec_length k p) as Lx.
  destruct (select_vertices_bound g (unit_vec k p)) as [H1 _]; [lia |].
  assert (E2 : i2 (select_vertices g (unit_vec k p)) = p).
  { destruct (select_vertices_i2_reach g (unit_vec k p))
      as [_ [[_ Hall] | [_ [Hk _]]]].
    - assert (Hkp : in_support (unit_vec k p) p = true).
      { unfold in_support. apply Qltb_true.
        unfold unit_vec.
        assert (N : nth_error (upd p (fun _ => 1) (repeat 0 k)) p = Some 1).
        { rewrite nth_error_upd, Nat.eqb_refl.
          rewrite nth_error_repeat by exact Hp. reflexivity. }
        rewrite (nth_error_nth _ _ _ N). reflexivity. }
      specialize (Hall p ltac:(lia) Hkp). lra.
    - simpl in Hk. unfold in_support in Hk. apply Qltb_true in Hk.
      apply (positive_entry_of_vertex k p). exact Hk. }
  unfold base_new_col, base_direction.
  destruct (Qltb _ _); cbn [d forward at_i1 at_i2].
  - split; [lia |]. split; [intro H; discriminate |].
    unfold d_FW.
    replace (unit_vec k (i1 (select_vertices g (unit_vec k p))))
      with (unit_vec (length (unit_vec k p))
                     (i1 (select_vertices g (unit_vec k p))))
      by (rewrite Lx; reflexivity).
    apply full_forward_step; [exact Ha | lia].
  - split; [lia |].
    assert (Hnull : Forall (fun q => q == 0)
                           (d_A (select_vertices g (unit_vec k p)) (unit_vec k p))).
    { unfold d_A. rewrite E2. apply away_from_vertex_is_null. }
    split; [intros _; split; [exact E2 | exact Hnull] |].
    apply null_step; [apply d_A_length | exact Hnull].
Qed.

Lemma first_turn_vertex_to_vertex_witness :
  let st := base_direction [-1 # 4; 1 # 4] (unit_vec 2 1) in
  (at_i1 st < 2)%nat /\
  (forward st = false -> at_i2 st = 1%nat /\ Forall (fun q => q == 0) (d st)) /\
  col_equiv (base_new_col [-1 # 4; 1 # 4] (unit_vec 2 1) 0)
            (unit_vec 2 (if forward st then at_i1 st else 1%nat)).
Proof.
  apply (first_turn_vertex_to_vertex [-1 # 4; 1 # 4] 2 1).
  - reflexivity.
  - lia.
  - reflexivity.
Defined.

(** ** The cluster labels of the Python wrapper *)

Lemma fill_labels (n : nat) (f : nat -> nat)
      (body : list nat -> nat -> result (list nat)) :
  (forall acc i, (i < n)%nat -> body acc i = set_at acc i (f i)) ->
  for_each n body (repeat O n) = Ok (map f (seq 0 n)).
Proof.
  intro Hbody.
  destruct (for_each_inv
              (fun m acc => acc = map f (seq 0 m) ++ repeat O (n - m))
              n body (repeat O n)) as [acc [E Hacc]].
  - rewrite Nat.sub_0_r. reflexivity.
  - intros m acc Hm ->. rewrite (Hbody _ _ Hm). unfold set_at.
    assert (Hlen : length (map f (seq 0 m)) = m)
      by (rewrite length_map, length_seq; reflexivity).
    replace (m <? length (map f (seq 0 m) ++ repeat O (n - m)))%nat with true.
    2: { symmetry. apply Nat.ltb_lt.
         rewrite length_app, Hlen, repeat_length. lia. }
    eexists. split; [reflexivity |].
    replace (n - m)%nat with (S (n - S m)) by lia. cbn [repeat].
    rewrite <- Hlen at 1. rewrite upd_app_exact.
    rewrite seq_S, map_app. cbn [map]. rewrite <- app_assoc. reflexivity.
  - rewrite E, Hacc, Nat.sub_diag. cbn [repeat]. rewrite app_nil_r.
    reflexivity.
Qed.

Lemma map_nth_seq (l : list nat) :
  map (fun i => nth i l O) (seq 0 (length l)) = l.
Proof.
  induction l as [| a l IH]; simpl; [reflexivity |].
  f_equal. rewrite <- seq_shift, map_map. exact IH.
Qed.

(** X17.  [signed_cluster] and [unsigned_cluster] hand the clustering
    routine exactly the caller's labels when the caller gives one label
    per row of [A], and the labels 0, 1, ..., [A.n_rows - 1] (every node
    in a cluster of its own) in every other case, an empty or a too short
    or too long vector included; building the vector never raises. *)
Theorem wrapper_initial_clusters (n : nat) (given : list nat) :
  initial_clusters_uvec n given
    = Ok (if (length given =? n)%nat then given else seq 0 n).
Proof.
  unfold initial_clusters_uvec.
  destruct (length given =? n)%nat eqn:E.
  - apply Nat.eqb_eq in E.
    rewrite (fill_labels n (fun i => nth i given O)).
    + subst n. rewrite map_nth_seq. reflexivity.
    + intros acc i Hi. unfold copy_label, get_at.
      destruct (nth_error given i) as [a |] eqn:Ea.
      * simpl. rewrite (nth_error_nth _ _ _ Ea). reflexivity.
      * apply nth_error_None in Ea. lia.
  - rewrite (fill_labels n (fun i => i)).
    + rewrite map_id. reflexivity.
    + intros acc i Hi. reflexivity.
Qed.
